(** * rss-live: the article cache, the aggregator and the refresh scheduler

    A shallow embedding of the TypeScript sources

    - [src/utils/slugify.ts]       (slugify),
    - [src/utils/rssParser.ts]     (generateArticleSlug, removeDuplicates,
                                    fetchAndParseRSS, fetchArticlesFromSources),
    - [src/cache/fileCache.ts]     (the file cache and addArticles),
    - [src/services/NewsService.ts] (the read API and refreshArticles),

    together with the properties the specification states about them.

    Conventions of the embedding.

    - A JavaScript string is the sequence of its code units; the embedding
      covers the code units U+0000 to U+00FF, one [ascii] each.
    - A JavaScript number that holds a time value is a [Z] (milliseconds since
      the epoch); [NaN] is [None].
    - [async] functions are functions on an explicit [World] (the cache
      directory, the clock, the disk and network behaviour, the refresh flag
      and a log of the I/O performed); a thrown error is the [Throw] result. *)

From Stdlib Require Import ZArith Ascii String List Lia Bool.
From stdpp Require Import base tactics option list gmap strings sorting.

#[local] Set Warnings "-clear-no-such-hyp".

Local Open Scope Z_scope.

(* ===================================================================== *)
(** * JavaScript strings *)
(* ===================================================================== *)

Module JS.

(** Code unit of a character. *)
Definition code (c : ascii) : N := N_of_ascii c.

Definition between (lo hi : N) (c : ascii) : bool :=
  ((lo <=? code c) && (code c <=? hi))%N.

Definition isUpper (c : ascii) : bool := between 65 90 c.
Definition isLowerAZ (c : ascii) : bool := between 97 122 c.
Definition isDigit (c : ascii) : bool := between 48 57 c.
Definition isUnderscore (c : ascii) : bool := (code c =? 95)%N.
Definition isHyphen (c : ascii) : bool := (code c =? 45)%N.

(** The regular-expression class [\w]: [A-Za-z0-9_]. *)
Definition isWord (c : ascii) : bool :=
  isUpper c || isLowerAZ c || isDigit c || isUnderscore c.

(** The class [\s], which is also the set [String.prototype.trim] strips:
    TAB, LF, VT, FF, CR, SPACE and NBSP are its members below U+0100. *)
Definition isSpace (c : ascii) : bool :=
  between 9 13 c || (code c =? 32)%N || (code c =? 160)%N.

(** [String.prototype.toLowerCase] on one code unit: [A-Z], and the Latin-1
    capitals U+00C0..U+00DE except the multiplication sign U+00D7. *)
Definition lowerChar (c : ascii) : ascii :=
  if isUpper c || (between 192 222 c && negb (code c =? 215)%N)
  then ascii_of_N (code c + 32)
  else c.

Definition chars (s : string) : list ascii := list_ascii_of_string s.
Definition str (l : list ascii) : string := string_of_list_ascii l.

Definition toLowerCaseL (l : list ascii) : list ascii := map lowerChar l.
Definition toLowerCase (s : string) : string := str (toLowerCaseL (chars s)).

(** Drop a leading run of characters of class [p]. *)
Fixpoint dropLeading (p : ascii -> bool) (l : list ascii) : list ascii :=
  match l with
  | [] => []
  | c :: r => if p c then dropLeading p r else l
  end.

(** Drop a trailing run of characters of class [p]. *)
Fixpoint dropTrailing (p : ascii -> bool) (l : list ascii) : list ascii :=
  match l with
  | [] => []
  | c :: r =>
      match dropTrailing p r with
      | [] => if p c then [] else [c]
      | r' => c :: r'
      end
  end.

Definition trimL (l : list ascii) : list ascii :=
  dropTrailing isSpace (dropLeading isSpace l).
Definition trim (s : string) : string := str (trimL (chars s)).

(** [s.replace(/[p]+/g, by)]: every maximal run of characters of class [p]
    is replaced by [by].  [inrun] tells that the previous character belonged
    to the run being replaced. *)
Fixpoint replaceRuns (p : ascii -> bool) (by_ : list ascii) (inrun : bool)
    (l : list ascii) : list ascii :=
  match l with
  | [] => []
  | c :: r =>
      if p c
      then (if inrun then replaceRuns p by_ true r
            else by_ ++ replaceRuns p by_ true r)
      else c :: replaceRuns p by_ false r
  end.

(** [s.replace(/\-\-+/g, '-')]: a run of two or more hyphens becomes one
    hyphen (a hyphen followed by a hyphen is dropped). *)
Fixpoint collapseHyphens (l : list ascii) : list ascii :=
  match l with
  | [] => []
  | c :: r =>
      match r with
      | d :: _ => if isHyphen c && isHyphen d then collapseHyphens r
                  else c :: collapseHyphens r
      | [] => [c]
      end
  end.

(** [s.substring(0, n)]. *)
Definition substring0 (n : nat) (l : list ascii) : list ascii := take n l.

(** Does [l] start with [pat]? *)
Fixpoint startsWith (pat l : list ascii) : bool :=
  match pat, l with
  | [], _ => true
  | _ :: _, [] => false
  | p :: pat', c :: l' => if Ascii.eqb p c then startsWith pat' l' else false
  end.

(** [s.includes(pat)]. *)
Fixpoint includesL (pat l : list ascii) : bool :=
  startsWith pat l ||
  match l with
  | [] => false
  | _ :: r => includesL pat r
  end.
Definition includes (s pat : string) : bool := includesL (chars pat) (chars s).

(** [s.replace(pat, by)] with a string pattern: the first occurrence only. *)
Fixpoint replaceFirstL (pat by_ l : list ascii) : list ascii :=
  if startsWith pat l then by_ ++ drop (length pat) l
  else match l with
       | [] => []
       | c :: r => c :: replaceFirstL pat by_ r
       end.
Definition replaceFirst (s pat by_ : string) : string :=
  str (replaceFirstL (chars pat) (chars by_) (chars s)).

(** [s.split(sep)[0]] for a one-character separator. *)
Fixpoint beforeL (sep : ascii) (l : list ascii) : list ascii :=
  match l with
  | [] => []
  | c :: r => if Ascii.eqb c sep then [] else c :: beforeL sep r
  end.
Definition splitHead (s : string) (sep : ascii) : string :=
  str (beforeL sep (chars s)).

(** Truthiness of a string: the empty string is falsy. *)
Definition truthy (s : string) : bool :=
  match s with EmptyString => false | _ => true end.

Definition length (s : string) : nat := String.length s.

End JS.

(* ===================================================================== *)
(** * src/utils/slugify.ts *)
(* ===================================================================== *)

Definition isSpaceOrUnderscore (c : ascii) : bool :=
  JS.isSpace c || JS.isUnderscore c.
Definition notWordOrHyphen (c : ascii) : bool :=
  negb (JS.isWord c || JS.isHyphen c).

Definition hyphen : list ascii := ["-"%char].

(** The chain of calls of [slugify], on the code units of [text]. *)
Definition slugifyL (l : list ascii) : list ascii :=
  let s1 := JS.toLowerCaseL l in
  let s2 := JS.trimL s1 in
  (* .replace(/[\s_]+/g, '-') *)
  let s3 := JS.replaceRuns isSpaceOrUnderscore hyphen false s2 in
  (* .replace(/[^\w\-]+/g, '') *)
  let s4 := JS.replaceRuns notWordOrHyphen [] false s3 in
  (* .replace(/\-\-+/g, '-') *)
  let s5 := JS.collapseHyphens s4 in
  (* .replace(/^-+|-+$/g, '') *)
  let s6 := JS.dropTrailing JS.isHyphen (JS.dropLeading JS.isHyphen s5) in
  (* .substring(0, 100) *)
  let s7 := JS.substring0 100 s6 in
  (* .replace(/-+$/, '') *)
  JS.dropTrailing JS.isHyphen s7.

(** [slugify(text)]; the guard [!text] returns [''] for the empty string
    (the type of [text] excludes the non-string case). *)
Definition slugify (text : string) : string :=
  if negb (JS.truthy text) then EmptyString
  else JS.str (slugifyL (JS.chars text)).

(** The slugification as the specification words it: lowercase, collapse
    whitespace and underscores to single hyphens, strip the characters that
    are neither word characters nor hyphens, collapse repeated hyphens, trim
    hyphens, cap to 100 characters, strip a trailing hyphen left by the cut. *)
Module SlugSpec.

Definition lowercase := JS.toLowerCaseL.
Definition collapse_blank_to_hyphen (l : list ascii) : list ascii :=
  JS.replaceRuns isSpaceOrUnderscore hyphen false l.
Definition strip_non_word (l : list ascii) : list ascii :=
  filter (fun c => Is_true (JS.isWord c || JS.isHyphen c)) l.
Definition collapse_hyphens (l : list ascii) : list ascii :=
  JS.replaceRuns JS.isHyphen hyphen false l.
Definition trim_hyphens (l : list ascii) : list ascii :=
  JS.dropTrailing JS.isHyphen (JS.dropLeading JS.isHyphen l).
Definition cap (l : list ascii) : list ascii := take 100 l.
Definition strip_trailing_hyphen (l : list ascii) : list ascii :=
  JS.dropTrailing JS.isHyphen l.

Definition slugified (title : string) : string :=
  JS.str (strip_trailing_hyphen (cap (trim_hyphens (collapse_hyphens
    (strip_non_word (collapse_blank_to_hyphen (lowercase (JS.chars title)))))))).

End SlugSpec.

Example slugify_demo :
  slugify "Breaking: Market Crashes!" = "breaking-market-crashes".
Proof. vm_compute. reflexivity. Qed.

Example slugify_spec_demo :
  SlugSpec.slugified "  Hello__World -- again  " = "hello-world-again"
  /\ slugify "  Hello__World -- again  " = "hello-world-again".
Proof. vm_compute. split; reflexivity. Qed.

(* --------------------------------------------------------------------- *)
(** ** The chain of [slugify] and the specification's wording agree *)
(* --------------------------------------------------------------------- *)

Section SlugifyFacts.

Implicit Types (l x y z : list ascii) (c w : ascii) (p : ascii -> bool).

Lemma isHyphen_eq c : JS.isHyphen c = true -> c = "-"%char.
Proof.
  unfold JS.isHyphen, JS.code. intros H%N.eqb_eq.
  rewrite <- (ascii_N_embedding c), H. reflexivity.
Qed.

(** Replacing runs by nothing is filtering. *)
Lemma replaceRuns_nil_filter p b l :
  JS.replaceRuns p [] b l = filter (fun c => Is_true (negb (p c))) l.
Proof.
  revert b. induction l as [|c r IH]; intros b; simpl; [done|].
  destruct (p c) eqn:E.
  - rewrite filter_cons_False by (rewrite E; simpl; tauto).
    destruct b; simpl; apply IH.
  - rewrite filter_cons_True by (rewrite E; simpl; tauto).
    f_equal. apply IH.
Qed.

Lemma strip_non_word_correct l :
  JS.replaceRuns notWordOrHyphen [] false l = SlugSpec.strip_non_word l.
Proof.
  rewrite replaceRuns_nil_filter. unfold SlugSpec.strip_non_word, notWordOrHyphen.
  apply list_filter_iff. intros c. rewrite negb_involutive. tauto.
Qed.

(** [/\-\-+/g -> '-'] leaves exactly one hyphen per run of hyphens. *)
Lemma collapseHyphens_runs l :
  JS.collapseHyphens l = JS.replaceRuns JS.isHyphen hyphen false l.
Proof.
  induction l as [|c r IH]; [done|].
  cbn [JS.collapseHyphens]. destruct r as [|d r'].
  - simpl. destruct (JS.isHyphen c) eqn:E; [|done].
    by rewrite (isHyphen_eq c E).
  - rewrite IH. cbn [JS.replaceRuns].
    destruct (JS.isHyphen c) eqn:Ec, (JS.isHyphen d) eqn:Ed; simpl;
      rewrite ?Ed; try done; by rewrite (isHyphen_eq c Ec).
Qed.

(** The tail of the chain, from the stripping of non-word characters to the
    trimming of hyphens. *)
Definition afterBlanks l : list ascii :=
  SlugSpec.trim_hyphens (SlugSpec.collapse_hyphens (SlugSpec.strip_non_word l)).

Lemma isWord_hyphen : JS.isWord "-" || JS.isHyphen "-" = true.
Proof. reflexivity. Qed.

Lemma dropLeading_collapse_flag y :
  JS.dropLeading JS.isHyphen (JS.replaceRuns JS.isHyphen hyphen true y) =
  JS.dropLeading JS.isHyphen (JS.replaceRuns JS.isHyphen hyphen false y).
Proof.
  destruct y as [|c r]; simpl; [done|].
  destruct (JS.isHyphen c) eqn:E; simpl; [done|]. by rewrite E.
Qed.

Lemma afterBlanks_hyphen_cons x : afterBlanks ("-"%char :: x) = afterBlanks x.
Proof.
  unfold afterBlanks, SlugSpec.trim_hyphens, SlugSpec.collapse_hyphens,
    SlugSpec.strip_non_word.
  rewrite filter_cons_True by (rewrite isWord_hyphen; simpl; tauto).
  cbn [JS.replaceRuns]. change (JS.isHyphen "-") with true. cbn iota.
  cbn [hyphen app JS.dropLeading]. change (JS.isHyphen "-") with true. cbn iota.
  by rewrite dropLeading_collapse_flag.
Qed.

Lemma dropTrailing_snoc p l c :
  JS.dropTrailing p (l ++ [c]) = if p c then JS.dropTrailing p l else l ++ [c].
Proof.
  induction l as [|d r IH]; simpl.
  - destruct (p c); done.
  - rewrite IH. destruct (p c) eqn:E; [done|].
    destruct (r ++ [c]) eqn:E'; [|done]. by destruct r.
Qed.

(** Appending one character of the class to the input of [replaceRuns]
    appends at most the replacement. *)
Lemma replaceRuns_snoc p by_ b l c :
  p c = true ->
  JS.replaceRuns p by_ b (l ++ [c]) = JS.replaceRuns p by_ b l
  \/ JS.replaceRuns p by_ b (l ++ [c]) = JS.replaceRuns p by_ b l ++ by_.
Proof.
  intros Hc. revert b. induction l as [|d r IH]; intros b; simpl.
  - rewrite Hc. destruct b; [left|right]; by rewrite ?app_nil_r.
  - destruct (p d).
    + destruct b.
      * apply IH.
      * destruct (IH true) as [->| ->]; [by left|right]. by rewrite app_assoc.
    + destruct (IH false) as [->| ->]; [by left|by right].
Qed.

Lemma trim_hyphens_snoc z :
  SlugSpec.trim_hyphens (z ++ ["-"%char]) = SlugSpec.trim_hyphens z.
Proof.
  unfold SlugSpec.trim_hyphens. induction z as [|c r IH]; [done|].
  cbn [app JS.dropLeading]. destruct (JS.isHyphen c) eqn:E; [apply IH|].
  change (c :: r ++ ["-"%char]) with ((c :: r) ++ ["-"%char]).
  rewrite dropTrailing_snoc. done.
Qed.

Lemma afterBlanks_hyphen_snoc x : afterBlanks (x ++ ["-"%char]) = afterBlanks x.
Proof.
  unfold afterBlanks, SlugSpec.collapse_hyphens, SlugSpec.strip_non_word.
  rewrite filter_app, filter_cons_True by (rewrite isWord_hyphen; simpl; tauto).
  rewrite filter_nil.
  destruct (replaceRuns_snoc JS.isHyphen hyphen false
              (filter (fun c => Is_true (JS.isWord c || JS.isHyphen c)) x) "-"%char
              eq_refl) as [->| ->]; [done|].
  apply trim_hyphens_snoc.
Qed.

(** A blank in front is a run of its own or joins the run that follows. *)
Lemma replaceRuns_flag p by_ l :
  JS.replaceRuns p by_ false l = JS.replaceRuns p by_ true l
  \/ JS.replaceRuns p by_ false l = by_ ++ JS.replaceRuns p by_ true l.
Proof. destruct l as [|c r]; simpl; [by left|]. destruct (p c); [by right|by left]. Qed.

Definition fromBlanks l : list ascii :=
  afterBlanks (SlugSpec.collapse_blank_to_hyphen l).

Lemma fromBlanks_cons w l :
  isSpaceOrUnderscore w = true -> fromBlanks (w :: l) = fromBlanks l.
Proof.
  intros Hw. unfold fromBlanks, SlugSpec.collapse_blank_to_hyphen.
  cbn [JS.replaceRuns]. rewrite Hw. cbn [hyphen app].
  rewrite afterBlanks_hyphen_cons.
  destruct (replaceRuns_flag isSpaceOrUnderscore hyphen l) as [->| ->]; [done|].
  cbn [hyphen app]. by rewrite afterBlanks_hyphen_cons.
Qed.

Lemma fromBlanks_snoc w l :
  isSpaceOrUnderscore w = true -> fromBlanks (l ++ [w]) = fromBlanks l.
Proof.
  intros Hw. unfold fromBlanks, SlugSpec.collapse_blank_to_hyphen.
  destruct (replaceRuns_snoc isSpaceOrUnderscore hyphen false l w Hw) as [->| ->];
    [done|apply afterBlanks_hyphen_snoc].
Qed.

Lemma isSpace_blank c : JS.isSpace c = true -> isSpaceOrUnderscore c = true.
Proof. unfold isSpaceOrUnderscore. by intros ->. Qed.

Lemma fromBlanks_dropLeading l :
  fromBlanks (JS.dropLeading JS.isSpace l) = fromBlanks l.
Proof.
  induction l as [|c r IH]; [done|]. simpl.
  destruct (JS.isSpace c) eqn:E; [|done].
  by rewrite IH, fromBlanks_cons by by apply isSpace_blank.
Qed.

Lemma fromBlanks_dropTrailing l :
  fromBlanks (JS.dropTrailing JS.isSpace l) = fromBlanks l.
Proof.
  induction l as [|c r IH] using rev_ind; [done|].
  rewrite dropTrailing_snoc. destruct (JS.isSpace c) eqn:E; [|done].
  by rewrite IH, fromBlanks_snoc by by apply isSpace_blank.
Qed.

(** [.trim()] before the blank-collapsing step does not change the result. *)
Lemma fromBlanks_trim l : fromBlanks (JS.trimL l) = fromBlanks l.
Proof. unfold JS.trimL. by rewrite fromBlanks_dropTrailing, fromBlanks_dropLeading. Qed.

Lemma slugifyL_spec l :
  slugifyL l =
  SlugSpec.strip_trailing_hyphen (SlugSpec.cap (fromBlanks (SlugSpec.lowercase l))).
Proof.
  unfold slugifyL. cbv zeta.
  rewrite strip_non_word_correct, collapseHyphens_runs.
  unfold SlugSpec.strip_trailing_hyphen, SlugSpec.cap, JS.substring0. do 2 f_equal.
  apply fromBlanks_trim.
Qed.

Lemma slugify_slugified text : slugify text = SlugSpec.slugified text.
Proof.
  unfold slugify, SlugSpec.slugified. destruct text as [|c t]; [done|].
  cbn [JS.truthy negb]. f_equal. apply slugifyL_spec.
Qed.

End SlugifyFacts.

(* ===================================================================== *)
(** * The JavaScript [Date] object *)
(* ===================================================================== *)

(** A [Date] is its time value: [Some t] with [t] in milliseconds since
    1970-01-01T00:00:00Z, or [None] for an invalid date ([getTime()] is
    [NaN]).  [parse] accepts the ECMAScript date-time string format with
    four-digit years and legal field values, [YYYY-MM-DD] or
    [YYYY-MM-DDTHH:mm[:ss[.sss]]] followed by [Z] or an offset [+HH:mm] /
    [-HH:mm]; this is the format [toISOString] writes and every engine reads
    alike.  What an engine does with other strings is its own business; they
    are invalid dates here, and the statements below that depend on a date
    ask for one that [parse] accepts. *)
Module JSDate.

Definition msPerSecond : Z := 1000.
Definition msPerMinute : Z := 60000.
Definition msPerHour : Z := 3600000.
Definition msPerDay : Z := 86400000.

Definition isLeap (y : Z) : bool :=
  ((y mod 4 =? 0) && negb (y mod 100 =? 0)) || (y mod 400 =? 0).

Definition daysInMonth (y m : Z) : Z :=
  if m =? 2 then (if isLeap y then 29 else 28)
  else if (m =? 4) || (m =? 6) || (m =? 9) || (m =? 11) then 30
  else 31.

(** Day number of a civil date, counted from 1970-01-01. *)
Definition daysFromCivil (y m d : Z) : Z :=
  let y' := if m <=? 2 then y - 1 else y in
  let era := y' / 400 in
  let yoe := y' - era * 400 in
  let doy := (153 * (if 2 <? m then m - 3 else m + 9) + 2) / 5 + d - 1 in
  let doe := yoe * 365 + yoe / 4 - yoe / 100 + doy in
  era * 146097 + doe - 719468.

(** Civil date (year, month, day) of a day number. *)
Definition civilFromDays (z : Z) : Z * Z * Z :=
  let z' := z + 719468 in
  let era := z' / 146097 in
  let doe := z' - era * 146097 in
  let yoe := (doe - doe / 1460 + doe / 36524 - doe / 146096) / 365 in
  let doy := doe - (365 * yoe + yoe / 4 - yoe / 100) in
  let mp := (5 * doy + 2) / 153 in
  let d := doy - (153 * mp + 2) / 5 + 1 in
  let m := if mp <? 10 then mp + 3 else mp - 9 in
  let y := yoe + era * 400 in
  ((if m <=? 2 then y + 1 else y), m, d).

Definition digitVal (c : ascii) : option Z :=
  if JS.isDigit c then Some (Z.of_N (JS.code c) - 48) else None.

(** Read exactly [w] decimal digits. *)
Fixpoint readDigits (w : nat) (acc : Z) (l : list ascii) : option (Z * list ascii) :=
  match w with
  | O => Some (acc, l)
  | S w' =>
      match l with
      | c :: r => v ← digitVal c; readDigits w' (10 * acc + v) r
      | [] => None
      end
  end.

Definition expect (c : ascii) (l : list ascii) : option (list ascii) :=
  match l with
  | d :: r => if Ascii.eqb c d then Some r else None
  | [] => None
  end.

(** The offset in minutes east of UTC that ends a date-time string; nothing
    may follow it. *)
Definition readOffset (l : list ascii) : option Z :=
  match l with
  | [c] => if Ascii.eqb c "Z" then Some 0 else None
  | s :: r =>
      sign ← (if Ascii.eqb s "+" then Some 1
              else if Ascii.eqb s "-" then Some (-1) else None);
      '(hh, r1) ← readDigits 2 0 r;
      r2 ← expect ":" r1;
      '(mm, r3) ← readDigits 2 0 r2;
      match r3 with
      | [] => if (hh <=? 23) && (mm <=? 59) then Some (sign * (hh * 60 + mm))
              else None
      | _ => None
      end
  | [] => None
  end.

(** The time of day in milliseconds, and what follows it. *)
Definition readTime (l : list ascii) : option (Z * list ascii) :=
  '(hh, r1) ← readDigits 2 0 l;
  r2 ← expect ":" r1;
  '(mi, r3) ← readDigits 2 0 r2;
  '(ss, ms, r6) ←
     match expect ":" r3 with
     | Some r4 =>
         '(ss, r5) ← readDigits 2 0 r4;
         match expect "." r5 with
         | Some r6 => '(ms, r7) ← readDigits 3 0 r6; Some (ss, ms, r7)
         | None => Some (ss, 0, r5)
         end
     | None => Some (0, 0, r3)
     end;
  if (hh <=? 23) && (mi <=? 59) && (ss <=? 59)
  then Some (hh * msPerHour + mi * msPerMinute + ss * msPerSecond + ms, r6)
  else None.

Definition parseL (l : list ascii) : option Z :=
  '(y, r1) ← readDigits 4 0 l;
  r2 ← expect "-" r1;
  '(m, r3) ← readDigits 2 0 r2;
  r4 ← expect "-" r3;
  '(d, r5) ← readDigits 2 0 r4;
  if (1 <=? m) && (m <=? 12) && (1 <=? d) && (d <=? daysInMonth y m)
  then
    let day := daysFromCivil y m d in
    match r5 with
    | [] => Some (day * msPerDay)
    | t :: r6 =>
        if Ascii.eqb t "T"
        then '(tod, r7) ← readTime r6;
             off ← readOffset r7;
             Some (day * msPerDay + tod - off * msPerMinute)
        else None
    end
  else None.

(** [new Date(s).getTime()]. *)
Definition parse (s : string) : option Z := parseL (JS.chars s).

Definition digitChar (n : Z) : ascii := ascii_of_N (Z.to_N (48 + n mod 10)).

(** [n] written with [w] digits, zero-padded. *)
Fixpoint pad (w : nat) (n : Z) : list ascii :=
  match w with
  | O => []
  | S w' => pad w' (n / 10) ++ [digitChar n]
  end.

(** The year of [toISOString]: four digits from 0 to 9999, otherwise a sign
    and six digits. *)
Definition isoYear (y : Z) : list ascii :=
  if (0 <=? y) && (y <=? 9999) then pad 4 y
  else (if y <? 0 then "-"%char else "+"%char) :: pad 6 (Z.abs y).

(** [YYYY-MM-DD] of the day that holds the time value [t]. *)
Definition isoDateL (t : Z) : list ascii :=
  let '(y, m, d) := civilFromDays (t / msPerDay) in
  isoYear y ++ ["-"%char] ++ pad 2 m ++ ["-"%char] ++ pad 2 d.

Definition isoTimeL (t : Z) : list ascii :=
  let tod := t mod msPerDay in
  pad 2 (tod / msPerHour) ++ [":"%char] ++
  pad 2 (tod mod msPerHour / msPerMinute) ++ [":"%char] ++
  pad 2 (tod mod msPerMinute / msPerSecond) ++ ["."%char] ++
  pad 3 (tod mod msPerSecond).

(** [date.toISOString()] of a valid date. *)
Definition toISOString (t : Z) : string :=
  JS.str (isoDateL t ++ ["T"%char] ++ isoTimeL t ++ ["Z"%char]).

End JSDate.

Example date_parse_demo :
  JSDate.parse "2024-01-05T10:00:00Z" = Some 1704448800000
  /\ JSDate.parse "2024-01-05T23:30:00.000-05:00" = Some 1704515400000
  /\ JSDate.parse "not-a-date" = None
  /\ JSDate.parse "2023-02-29T00:00:00Z" = None.
Proof. vm_compute. repeat split; reflexivity. Qed.

Example date_iso_demo :
  JSDate.toISOString 1704448800000 = "2024-01-05T10:00:00.000Z"
  /\ JSDate.toISOString 1704515400000 = "2024-01-06T04:30:00.000Z"
  /\ JSDate.toISOString (-1) = "1969-12-31T23:59:59.999Z".
Proof. vm_compute. repeat split; reflexivity. Qed.

(* ===================================================================== *)
(** * src/utils/rssParser.ts: generateArticleSlug *)
(* ===================================================================== *)

(** [pubDate.replace(' BST', ' +0100').replace(' GMT', ' +0000')]. *)
Definition normalizeTimezone (pubDate : string) : string :=
  JS.replaceFirst (JS.replaceFirst pubDate " BST" " +0100") " GMT" " +0000".

(** [generateArticleSlug(title, pubDate)].  [now] is the time [new Date()]
    reads when [pubDate] is not a valid date. *)
Definition generateArticleSlug (now : Z) (title pubDate : string) : string :=
  let date :=
    match JSDate.parse (normalizeTimezone pubDate) with
    | Some t => t
    | None => now
    end in
  let dateStr := JS.splitHead (JSDate.toISOString date) "T" in
  let titleSlug := slugify title in
  dateStr +:+ "-" +:+ titleSlug.

Example generateArticleSlug_demo now :
  generateArticleSlug now "Breaking: Market Crashes!" "2024-01-05T10:00:00Z"
  = "2024-01-05-breaking-market-crashes".
Proof. vm_compute. reflexivity. Qed.

Section DateFacts.

Lemma chars_str l : JS.chars (JS.str l) = l.
Proof. apply list_ascii_of_string_of_list_ascii. Qed.

Lemma str_chars s : JS.str (JS.chars s) = s.
Proof. apply string_of_list_ascii_of_string. Qed.

Lemma str_app l1 l2 : JS.str (l1 ++ l2) = JS.str l1 +:+ JS.str l2.
Proof. unfold JS.str. induction l1 as [|c r IH]; simpl; [done|]. by rewrite IH. Qed.

Lemma beforeL_app_sep sep l r :
  Forall (fun c => Ascii.eqb c sep = false) l ->
  JS.beforeL sep (l ++ sep :: r) = l.
Proof.
  induction 1 as [|c l Hc _ IH]; simpl.
  - by rewrite Ascii.eqb_refl.
  - by rewrite Hc, IH.
Qed.

Lemma digitChar_isDigit n : JS.isDigit (JSDate.digitChar n) = true.
Proof.
  unfold JSDate.digitChar.
  assert (H : 0 <= n mod 10 < 10) by (apply Z.mod_pos_bound; lia).
  assert (C : n mod 10 = 0 \/ n mod 10 = 1 \/ n mod 10 = 2 \/ n mod 10 = 3 \/
              n mod 10 = 4 \/ n mod 10 = 5 \/ n mod 10 = 6 \/ n mod 10 = 7 \/
              n mod 10 = 8 \/ n mod 10 = 9) by lia.
  destruct C as [-> | [-> | [-> | [-> | [-> | [-> | [-> | [-> | [-> | ->]]]]]]]]];
    reflexivity.
Qed.

Lemma pad_digits w n : Forall (fun c => JS.isDigit c = true) (JSDate.pad w n).
Proof.
  revert n. induction w as [|w IH]; intros n; simpl; [constructor|].
  apply Forall_app. split; [apply IH|]. repeat constructor. apply digitChar_isDigit.
Qed.

Lemma isDigit_not_T c : JS.isDigit c = true -> Ascii.eqb c "T" = false.
Proof.
  intros H. destruct (Ascii.eqb c "T") eqn:E; [|done].
  apply Ascii.eqb_eq in E. subst c. discriminate H.
Qed.

Lemma isoDateL_no_T t :
  Forall (fun c => Ascii.eqb c "T" = false) (JSDate.isoDateL t).
Proof.
  unfold JSDate.isoDateL. destruct (JSDate.civilFromDays _) as [[y m] d].
  assert (P : forall w n, Forall (fun c => Ascii.eqb c "T" = false) (JSDate.pad w n)).
  { intros w n. eapply Forall_impl; [apply pad_digits|]. apply isDigit_not_T. }
  apply Forall_app. split.
  - unfold JSDate.isoYear. destruct (_ && _); [apply P|].
    constructor; [by destruct (y <? 0)|apply P].
  - constructor; [done|]. apply Forall_app. split; [apply P|].
    constructor; [done|apply P].
Qed.

(** [date.toISOString().split("T")[0]] is the calendar day of the date. *)
Lemma toISOString_splitHead t :
  JS.splitHead (JSDate.toISOString t) "T" = JS.str (JSDate.isoDateL t).
Proof.
  unfold JS.splitHead, JSDate.toISOString. rewrite chars_str. f_equal.
  cbn [app]. apply beforeL_app_sep, isoDateL_no_T.
Qed.

End DateFacts.

(** ** C7: the slug of an article *)

(** C7 (as the code has it).  For every title and every publication date
    that the code reads as a valid date [t], [generateArticleSlug] returns the
    [YYYY-MM-DD] day of [t] in UTC (the part of [toISOString()] before the
    [T]: the calendar day of the instant, which is not the day written in the
    date when its offset carries the instant over midnight), a hyphen, and the
    title slugified as the specification words it: lowercased, whitespace and
    underscores collapsed to single hyphens, characters other than word
    characters and hyphens stripped, repeated hyphens collapsed, leading and
    trailing hyphens trimmed, capped at 100 characters, a trailing hyphen left
    by the cut removed.  In particular the slug of
    ["Breaking: Market Crashes!"] published at [2024-01-05T10:00:00Z] is
    ["2024-01-05-breaking-market-crashes"]. *)
Theorem C7_slug_derivation :
  (forall (now : Z) (title pubDate : string) (t : Z),
      JSDate.parse (normalizeTimezone pubDate) = Some t ->
      generateArticleSlug now title pubDate =
      JS.str (JSDate.isoDateL t) +:+ "-" +:+ SlugSpec.slugified title)
  /\ (forall now : Z,
      generateArticleSlug now "Breaking: Market Crashes!" "2024-01-05T10:00:00Z"
      = "2024-01-05-breaking-market-crashes").
Proof.
  split.
  - intros now title pubDate t Ht. unfold generateArticleSlug.
    rewrite Ht. cbv zeta. by rewrite toISOString_splitHead, slugify_slugified.
  - intros now. vm_compute. reflexivity.
Qed.

Lemma C7_slug_derivation_witness :
  JSDate.parse (normalizeTimezone "2024-03-09T00:15:00+02:00") = Some 1709936100000
  /\ generateArticleSlug 0 "  Fed_raises   rates -- again?! " "2024-03-09T00:15:00+02:00"
     = JS.str (JSDate.isoDateL 1709936100000) +:+ "-"
       +:+ SlugSpec.slugified "  Fed_raises   rates -- again?! ".
Proof.
  split; [vm_compute; reflexivity|].
  apply (proj1 C7_slug_derivation). vm_compute. reflexivity.
Defined.

(** The claim as stated fails for a date whose offset carries the instant
    over midnight in UTC: [2024-01-05T23:30:00.000-05:00] is a valid ISO date
    whose first ten characters are [2024-01-05], and the slug starts with
    [2024-01-06], the day of the instant in UTC. *)
Lemma C7_counterexample_utc_day :
  let title := "Fed raises rates" in
  let pubDate := "2024-01-05T23:30:00.000-05:00" in
  JSDate.parse (normalizeTimezone pubDate) = Some 1704515400000
  /\ JS.str (JS.substring0 10 (JS.chars pubDate)) = "2024-01-05"
  /\ SlugSpec.slugified title = "fed-raises-rates"
  /\ (forall now : Z,
        generateArticleSlug now title pubDate = "2024-01-06-fed-raises-rates")
  /\ (forall now : Z,
        generateArticleSlug now title pubDate
        <> JS.str (JS.substring0 10 (JS.chars pubDate)) +:+ "-"
           +:+ SlugSpec.slugified title).
Proof.
  cbv zeta.
  split; [vm_compute; reflexivity|]. split; [vm_compute; reflexivity|].
  split; [vm_compute; reflexivity|]. split.
  - intros now. vm_compute. reflexivity.
  - intros now. vm_compute. discriminate.
Qed.

(* ===================================================================== *)
(** * src/types/index.ts *)
(* ===================================================================== *)

Inductive Urgency := UBreaking | UUrgent | UNormal | ULow.

Inductive NewsType :=
  NTBreaking | NTPolitics | NTBusiness | NTSports | NTTechnology | NTScience
| NTEntertainment | NTGeneral.

Module NewsSource.
Record t := mk {
  name : string;
  url : string;
  category : string;
  color : string;
}.
End NewsSource.

(** An optional field ([image?: string]) is an [option]: [None] is
    [undefined]. *)
Module Article.
Record t := mk {
  id : string;
  title : string;
  description : string;
  content : string;
  link : string;
  pubDate : string;
  author : option string;
  source : string;
  sourceColor : string;
  category : string;
  slug : string;
  image : option string;
  tags : list string;
  readingTime : Z;
  newsKeywords : option (list string);
  location : option string;
  urgency : option Urgency;
  originalSource : option string;
  creditLine : option string;
  newsType : option NewsType;
}.

(** [new Date(a.pubDate).getTime()]. *)
Definition time (a : t) : option Z := JSDate.parse (pubDate a).

(** Truthiness of [a.image]: defined and not the empty string. *)
Definition hasImage (a : t) : bool :=
  match image a with
  | Some s => JS.truthy s
  | None => false
  end.
End Article.

(* ===================================================================== *)
(** * [Array.prototype.sort] *)
(* ===================================================================== *)

(** [l.sort(comparefn)].  The sort is stable; a comparison that yields [NaN]
    counts as [+0].  The result is the list built by inserting the elements
    from the last to the first, each one in front of the first element that
    it need not follow.  For a consistent [comparefn] this is the order the
    language prescribes; for an inconsistent one (invalid dates among valid
    ones) the language leaves the order to the engine. *)
Section ArraySort.
Context {A : Type} (comparefn : A -> A -> option Z).

Definition sortCompare (x y : A) : Z := default 0 (comparefn x y).

Fixpoint sortInsert (x : A) (l : list A) : list A :=
  match l with
  | [] => [x]
  | y :: r => if sortCompare x y <=? 0 then x :: l else y :: sortInsert x r
  end.

Definition Array_sort (l : list A) : list A := foldr sortInsert [] l.

End ArraySort.

(** [(a, b) => new Date(b.pubDate).getTime() - new Date(a.pubDate).getTime()] *)
Definition byDateDesc (a b : Article.t) : option Z :=
  tb ← Article.time b; ta ← Article.time a; Some (tb - ta).

(* ===================================================================== *)
(** * src/utils/rssParser.ts: removeDuplicates *)
(* ===================================================================== *)

Definition isWordOrSpace (c : ascii) : bool := JS.isWord c || JS.isSpace c.

(** [article.title.toLowerCase().replace(/[^\w\s]/g, "").trim()] *)
Definition normalizedTitle (a : Article.t) : string :=
  JS.str (JS.trimL
    (JS.replaceRuns (fun c => negb (isWordOrSpace c)) [] false
       (JS.toLowerCaseL (JS.chars (Article.title a))))).

(** The template string [`${normalizedTitle}-${article.link}`]. *)
Definition dedupKey (a : Article.t) : string :=
  normalizedTitle a +:+ "-" +:+ Article.link a.

(** One turn of the [for ... of] loop on the pair ([seen], [uniqueArticles]). *)
Definition removeDuplicates_step (st : gset string * list Article.t)
    (article : Article.t) : gset string * list Article.t :=
  let '(seen, uniqueArticles) := st in
  let key := dedupKey article in
  if decide (key ∈ seen) then st
  else ({[key]} ∪ seen, uniqueArticles ++ [article]).

Definition removeDuplicates (articles : list Article.t) : list Article.t :=
  snd (fold_left removeDuplicates_step articles (∅, [])).

(** The articles of [l] that carry the key [k], in order. *)
Definition withKey (k : string) (l : list Article.t) : list Article.t :=
  filter (fun a => dedupKey a = k) l.

Section RemoveDuplicatesFacts.

Implicit Types (seen : gset string) (l articles : list Article.t) (k : string).

(** The articles the loop appends when it starts from the set [seen]. *)
Fixpoint keepNew seen l : list Article.t :=
  match l with
  | [] => []
  | a :: r =>
      if decide (dedupKey a ∈ seen) then keepNew seen r
      else a :: keepNew ({[dedupKey a]} ∪ seen) r
  end.

Lemma removeDuplicates_loop l seen uniq :
  snd (fold_left removeDuplicates_step l (seen, uniq)) = uniq ++ keepNew seen l.
Proof.
  revert seen uniq. induction l as [|a r IH]; intros seen uniq; simpl.
  - by rewrite app_nil_r.
  - destruct (decide (dedupKey a ∈ seen)); [apply IH|].
    by rewrite IH, <- app_assoc.
Qed.

Lemma removeDuplicates_keepNew l : removeDuplicates l = keepNew ∅ l.
Proof. unfold removeDuplicates. by rewrite removeDuplicates_loop. Qed.

Lemma keepNew_sublist seen l : sublist (keepNew seen l) l.
Proof.
  revert seen. induction l as [|a r IH]; intros seen; simpl; [constructor|].
  destruct (decide _); [apply sublist_cons|apply sublist_skip]; apply IH.
Qed.

Lemma keepNew_fresh seen l b : b ∈ keepNew seen l -> dedupKey b ∉ seen.
Proof.
  revert seen. induction l as [|a r IH]; intros seen; simpl.
  - by intros ?%elem_of_nil.
  - destruct (decide _) as [|Hn]; [apply IH|].
    intros [->|Hb%IH]%elem_of_cons; [done|set_solver].
Qed.

Lemma keepNew_NoDup seen l : NoDup (dedupKey <$> keepNew seen l).
Proof.
  revert seen. induction l as [|a r IH]; intros seen; simpl; [constructor|].
  destruct (decide _) as [|Hn]; [apply IH|].
  rewrite fmap_cons. constructor; [|apply IH].
  intros (b & Hk & Hb%keepNew_fresh)%list_elem_of_fmap. set_solver.
Qed.

Lemma withKey_keepNew k seen l :
  withKey k (keepNew seen l) =
  if decide (k ∈ seen) then [] else option_list (head (withKey k l)).
Proof.
  unfold withKey. revert seen. induction l as [|a r IH]; intros seen; simpl.
  - by destruct (decide _).
  - destruct (decide (dedupKey a ∈ seen)) as [Hin|Hn].
    + rewrite IH. destruct (decide (dedupKey a = k)) as [<-|Hne].
      * by rewrite !decide_True by done.
      * by rewrite (filter_cons_False _ a r).
    + destruct (decide (dedupKey a = k)) as [<-|Hne].
      * rewrite !filter_cons_True by done. rewrite IH.
        rewrite decide_True by set_solver. by rewrite decide_False.
      * rewrite !filter_cons_False by done. rewrite IH.
        destruct (decide (k ∈ seen)).
        -- by rewrite decide_True by set_solver.
        -- by rewrite decide_False by set_solver.
Qed.

(** The normalized title holds no hyphen, so the key determines both of its
    parts. *)
Lemma dropLeading_subseteq p (x : list ascii) : JS.dropLeading p x ⊆ x.
Proof.
  induction x as [|c r IH]; simpl; [done|]. destruct (p c); [|done].
  intros e He. apply elem_of_cons. right. by apply IH.
Qed.

Lemma dropTrailing_subseteq p (x : list ascii) : JS.dropTrailing p x ⊆ x.
Proof.
  induction x as [|c r IH]; simpl; [done|].
  destruct (JS.dropTrailing p r) eqn:E.
  - destruct (p c); [apply list_subseteq_nil|]. set_solver.
  - set_solver.
Qed.

Lemma normalizedTitle_no_hyphen a :
  "-"%char ∉ JS.chars (normalizedTitle a).
Proof.
  unfold normalizedTitle. rewrite chars_str. unfold JS.trimL.
  intros H%dropTrailing_subseteq%dropLeading_subseteq.
  rewrite replaceRuns_nil_filter in H. apply list_elem_of_filter in H as [H _].
  by rewrite negb_involutive in H.
Qed.

Lemma app_hyphen_inj (s1 s2 t1 t2 : list ascii) :
  "-"%char ∉ s1 -> "-"%char ∉ s2 ->
  s1 ++ "-"%char :: t1 = s2 ++ "-"%char :: t2 -> s1 = s2 /\ t1 = t2.
Proof.
  revert s2. induction s1 as [|c r IH]; intros [|d r2] H1 H2 E; simpl in E.
  - by inversion E.
  - inversion E; subst. set_solver.
  - inversion E; subst. set_solver.
  - inversion E; subst. destruct (IH r2) as [-> ->]; [set_solver..|done| done].
Qed.

Lemma chars_append (s t : string) : JS.chars (s +:+ t) = JS.chars s ++ JS.chars t.
Proof. unfold JS.chars. induction s as [|c s IH]; simpl; [done|]. by rewrite IH. Qed.

Lemma chars_inj (s t : string) : JS.chars s = JS.chars t -> s = t.
Proof. intros E. by rewrite <- (str_chars s), <- (str_chars t), E. Qed.

Lemma dedupKey_inj a b :
  dedupKey a = dedupKey b <->
  normalizedTitle a = normalizedTitle b /\ Article.link a = Article.link b.
Proof.
  split; [|unfold dedupKey; by intros [-> ->]].
  intros E%(f_equal JS.chars). unfold dedupKey in E.
  rewrite !chars_append in E. simpl in E.
  apply app_hyphen_inj in E as [E1 E2]; try apply normalizedTitle_no_hyphen.
  split; by apply chars_inj.
Qed.

End RemoveDuplicatesFacts.

(** ** C6: deduplication in the aggregator *)


(* ===================================================================== *)
(** * The world of the [async] functions *)
(* ===================================================================== *)

(** The object a cache file holds once [JSON.parse] has read it.  A field the
    object lacks is [None]. *)
Module Snapshot.
Record t := mk {
  version : option string;
  lastUpdated : option Z;
  articles : option (list Article.t);
  feeds : option (list NewsSource.t);
}.
End Snapshot.

(** A file: its modification time ([stats.mtime.getTime()]) and what
    [JSON.parse] makes of its text, [None] when the text is not the JSON of an
    object.  [JSON.parse(JSON.stringify(x))] is taken to be [x]. *)
Record File := mkFile {
  mtime : Z;
  parsed : option Snapshot.t;
}.

Inductive Event :=
| EvStat (path : string)
| EvReadFile (path : string)
| EvMkdir (path : string)
| EvWriteFile (path : string)
| EvUnlink (path : string)
| EvFetch (source : NewsSource.t).

Inductive Error := ENOENT | EIO | SyntaxError | TypeError.

Record World := mkWorld {
  files : gmap string File;          (* the files, by path *)
  clock : Z;                         (* Date.now() *)
  diskFails : string -> bool;        (* mkdir / writeFile of this path throws *)
  network : NewsSource.t -> option (list Article.t);
                                     (* the items of a feed, through
                                        parseRSSItem; None: the request or
                                        the parser fails *)
  isRefreshing : bool;               (* NewsService.isRefreshing *)
  log : list Event;                  (* the I/O performed, latest first *)
}.

Definition logged (e : Event) (w : World) : World :=
  mkWorld (files w) (clock w) (diskFails w) (network w) (isRefreshing w) (e :: log w).
Definition withFiles (fs : gmap string File) (w : World) : World :=
  mkWorld fs (clock w) (diskFails w) (network w) (isRefreshing w) (log w).
Definition withFlag (b : bool) (w : World) : World :=
  mkWorld (files w) (clock w) (diskFails w) (network w) b (log w).

Inductive Result (A : Type) :=
| Ok (a : A)
| Throw (e : Error).
Arguments Ok {A} a.
Arguments Throw {A} e.

(** A computation that may read and change the world, and return or throw. *)
Definition M (A : Type) : Type := World -> Result A * World.

Definition ret {A} (a : A) : M A := fun w => (Ok a, w).
Definition throw {A} (e : Error) : M A := fun w => (Throw e, w).
Definition bind {A B} (m : M A) (k : A -> M B) : M B :=
  fun w => match m w with
           | (Ok a, w') => k a w'
           | (Throw e, w') => (Throw e, w')
           end.
(** [try { m } catch (error) { h error }] *)
Definition tryCatch {A} (m : M A) (h : Error -> M A) : M A :=
  fun w => match m w with
           | (Ok a, w') => (Ok a, w')
           | (Throw e, w') => h e w'
           end.
(** [try { m } finally { fin }], for a [fin] that does not throw or return. *)
Definition tryFinally {A} (m : M A) (fin : World -> World) : M A :=
  fun w => let '(r, w') := m w in (r, fin w').

Declare Scope js_scope.
Delimit Scope js_scope with js.
Notation "'let!' x ':=' m 'in' k" := (bind m (fun x => k))
  (at level 10, x name, m at level 100, k at level 200) : js_scope.
Notation "m ';;' k" := (bind m (fun _ => k))
  (at level 100, k at level 200, right associativity) : js_scope.
Local Open Scope js_scope.

(** ** The primitives of [fs] and [Date] *)

(** [(await fs.stat(path)).mtime.getTime()] *)
Definition fs_stat (path : string) : M Z :=
  fun w => match files w !! path with
           | Some f => (Ok (mtime f), logged (EvStat path) w)
           | None => (Throw ENOENT, logged (EvStat path) w)
           end.

(** [JSON.parse(await fs.readFile(path, 'utf-8'))] *)
Definition fs_readFile_JSON_parse (path : string) : M Snapshot.t :=
  fun w => match files w !! path with
           | Some f =>
               match parsed f with
               | Some data => (Ok data, logged (EvReadFile path) w)
               | None => (Throw SyntaxError, logged (EvReadFile path) w)
               end
           | None => (Throw ENOENT, logged (EvReadFile path) w)
           end.

(** [await fs.mkdir(path, { recursive: true })] *)
Definition fs_mkdir (path : string) : M unit :=
  fun w => if diskFails w path then (Throw EIO, logged (EvMkdir path) w)
           else (Ok tt, logged (EvMkdir path) w).

(** [await fs.writeFile(path, JSON.stringify(data, null, 2))] *)
Definition fs_writeFile (path : string) (data : Snapshot.t) : M unit :=
  fun w => if diskFails w path then (Throw EIO, logged (EvWriteFile path) w)
           else (Ok tt,
                 logged (EvWriteFile path)
                   (withFiles (<[path := mkFile (clock w) (Some data)]> (files w)) w)).

Definition Date_now : M Z := fun w => (Ok (clock w), w).

(* ===================================================================== *)
(** * src/cache/fileCache.ts *)
(* ===================================================================== *)

Definition CACHE_DIR : string := ".cache/news".
Definition CACHE_VERSION : string := "1.0.0".
Definition CACHE_EXPIRY_MS : Z := 30 * 60 * 1000.
Definition MAX_ARTICLES : nat := 1000.

Definition ensureCacheDir : M unit :=
  tryCatch (fs_mkdir CACHE_DIR) (fun error => throw error).

(** [path.join(CACHE_DIR, filename)] *)
Definition getCacheFilePath (filename : string) : string :=
  CACHE_DIR +:+ "/" +:+ filename.

Definition isCacheValid (filepath : string) : M bool :=
  tryCatch
    (let! mtime := fs_stat filepath in
     let! now := Date_now in
     let fileAge := now - mtime in
     ret (fileAge <? CACHE_EXPIRY_MS))
    (fun _ => ret false).

(** [readCacheFile(filename)]; [None] is [null]. *)
Definition readCacheFile (filename : string) : M (option Snapshot.t) :=
  tryCatch
    (let filepath := getCacheFilePath filename in
     let! valid := isCacheValid filepath in
     if negb valid then ret None
     else
       let! data := fs_readFile_JSON_parse filepath in
       if negb (bool_decide (Snapshot.version data = Some CACHE_VERSION))
       then ret None
       else ret (Some data))
    (fun _ => ret None).

(** [writeCacheFile(filename, data)]: [{...data, version, lastUpdated}] *)
Definition writeCacheFile (filename : string) (data : Snapshot.t) : M unit :=
  tryCatch
    (ensureCacheDir;;
     let filepath := getCacheFilePath filename in
     let! now := Date_now in
     let cacheData :=
       Snapshot.mk (Some CACHE_VERSION) (Some now)
         (Snapshot.articles data) (Snapshot.feeds data) in
     fs_writeFile filepath cacheData)
    (fun error => throw error).

(** [cacheData?.articles || []] *)
Definition articlesOrEmpty (cacheData : option Snapshot.t) : list Article.t :=
  match cacheData with
  | Some d => default [] (Snapshot.articles d)
  | None => []
  end.

Definition getCachedArticles : M (list Article.t) :=
  tryCatch
    (let! cacheData := readCacheFile "articles.json" in
     ret (articlesOrEmpty cacheData))
    (fun _ => ret []).

Definition cacheArticles (articles : list Article.t) : M unit :=
  tryCatch
    (let! now := Date_now in
     let cacheData :=
       Snapshot.mk (Some CACHE_VERSION) (Some now) (Some articles) None in
     writeCacheFile "articles.json" cacheData)
    (fun error => throw error).

(** [new Set(existingArticles.map(article => article.id))] *)
Definition idSet (articles : list Article.t) : gset string :=
  list_to_set (Article.id <$> articles).

Definition addArticles (newArticles : list Article.t) : M (list Article.t) :=
  tryCatch
    (let! existingArticles := getCachedArticles in
     let existingIds := idSet existingArticles in
     let uniqueNewArticles :=
       filter (fun article => Article.id article ∉ existingIds) newArticles in
     if (length uniqueNewArticles =? 0)%nat then ret existingArticles
     else
       let allArticles :=
         Array_sort byDateDesc (uniqueNewArticles ++ existingArticles) in
       let trimmedArticles := take MAX_ARTICLES allArticles in
       cacheArticles trimmedArticles;;
       ret trimmedArticles)
    (fun error => throw error).

(** [cacheFeedData(feedData)] for [feedData = { feeds, articles, lastUpdated }] *)
Definition cacheFeedData (feeds : list NewsSource.t) (articles : list Article.t)
    (lastUpdated : Z) : M unit :=
  tryCatch
    (writeCacheFile "feeds.json"
       (Snapshot.mk None (Some lastUpdated) (Some articles) (Some feeds)))
    (fun error => throw error).

(** The statistics of the cache; the byte size of the file, which nothing
    below depends on, is left out. *)
Record CacheStats := mkStats {
  articlesCount : nat;
  lastUpdatedStat : option Z;
  isExpired : bool;
}.

(** [x || null] for a number. *)
Definition orNull (x : option Z) : option Z :=
  match x with
  | Some 0 => None
  | _ => x
  end.

Definition getCacheStats : M CacheStats :=
  tryCatch
    (let! cacheData := readCacheFile "articles.json" in
     let filepath := getCacheFilePath "articles.json" in
     let! valid := isCacheValid filepath in
     let isExpired := negb valid in
     (* cacheData?.articles.length || 0 *)
     let! count :=
       match cacheData with
       | None => ret 0%nat
       | Some d =>
           match Snapshot.articles d with
           | Some l => ret (length l)
           | None => throw TypeError
           end
       end in
     ret (mkStats count
            (orNull (match cacheData with
                     | Some d => Snapshot.lastUpdated d
                     | None => None
                     end))
            isExpired))
    (fun _ => ret (mkStats 0 None true)).

Definition getCachedArticlesByCategory (category : string) : M (list Article.t) :=
  tryCatch
    (let! allArticles := getCachedArticles in
     ret (filter (fun article => Article.category article = category) allArticles))
    (fun _ => ret []).

Definition getCachedArticleBySlug (slug : string) : M (option Article.t) :=
  tryCatch
    (let! allArticles := getCachedArticles in
     ret (head (filter (fun article => Article.slug article = slug) allArticles)))
    (fun _ => ret None).

(** The predicate of the [filter] in [searchCachedArticles]. *)
Definition matchesQuery (lowercaseQuery : string) (article : Article.t) : bool :=
  JS.includes (JS.toLowerCase (Article.title article)) lowercaseQuery
  || JS.includes (JS.toLowerCase (Article.description article)) lowercaseQuery
  || JS.includes (JS.toLowerCase (Article.content article)) lowercaseQuery
  || existsb (fun tag => JS.includes (JS.toLowerCase tag) lowercaseQuery)
       (Article.tags article).

Definition searchCachedArticles (query : string) : M (list Article.t) :=
  tryCatch
    (let! allArticles := getCachedArticles in
     let lowercaseQuery := JS.toLowerCase query in
     ret (filter (fun article => Is_true (matchesQuery lowercaseQuery article))
            allArticles))
    (fun _ => ret []).

(* ===================================================================== *)
(** * src/config/newsCategories.ts *)
(* ===================================================================== *)

Definition newsSources : list NewsSource.t :=
  [
     NewsSource.mk "BBC News" "https://feeds.bbci.co.uk/news/rss.xml" "general" "bg-red-600";
     NewsSource.mk "Reuters" "https://www.reutersagency.com/feed/?best-topics=business-finance&post_type=best" "general" "bg-orange-500";
     NewsSource.mk "NPR" "https://feeds.npr.org/1001/rss.xml" "general" "bg-purple-600";
     NewsSource.mk "GOV.UK" "https://www.gov.uk/search/news-and-communications.atom" "government" "bg-gray-700";
     NewsSource.mk "BBC Politics" "https://feeds.bbci.co.uk/news/politics/rss.xml" "government" "bg-red-600";
     NewsSource.mk "Financial Times" "https://www.ft.com/rss/home/uk" "business" "bg-pink-600";
     NewsSource.mk "MarketWatch" "https://feeds.marketwatch.com/marketwatch/topstories/" "business" "bg-emerald-600";
     NewsSource.mk "PR Newswire" "https://www.prnewswire.com/rss/all-news-releases-list.rss" "business" "bg-green-600";
     NewsSource.mk "TechCrunch" "https://techcrunch.com/feed/" "technology" "bg-green-500";
     NewsSource.mk "Ars Technica" "http://feeds.arstechnica.com/arstechnica/index" "technology" "bg-orange-600";
     NewsSource.mk "NASA" "https://www.nasa.gov/feed/" "science" "bg-slate-700";
     NewsSource.mk "Science Daily" "https://www.sciencedaily.com/rss/all.xml" "science" "bg-violet-600";
     NewsSource.mk "ESPN" "https://www.espn.com/espn/rss/news" "sports" "bg-red-700";
     NewsSource.mk "BBC Sport" "https://feeds.bbci.co.uk/sport/rss.xml" "sports" "bg-red-600";
     NewsSource.mk "Sky Sports" "https://www.skysports.com/rss/12040" "sports" "bg-times-600";
     NewsSource.mk "Variety" "https://variety.com/feed/" "entertainment" "bg-yellow-600";
     NewsSource.mk "Rolling Stone" "https://www.rollingstone.com/feed/" "entertainment" "bg-red-500";
     NewsSource.mk "IGN" "https://feeds.ign.com/ign/all" "entertainment" "bg-orange-500";
     NewsSource.mk "Climate.gov" "https://www.climate.gov/news-features/feed" "environment" "bg-times-500"
  ].

(* ===================================================================== *)
(** * src/utils/rssParser.ts: the aggregator *)
(* ===================================================================== *)

(** [fetchAndParseRSS(source)].  [network w source] stands for
    [feed.items.map(item => parseRSSItem(item, source, source.url))]; the
    mapping commutes with [slice(0, 20)]. *)
Definition fetchAndParseRSS (source : NewsSource.t) : M (list Article.t) :=
  tryCatch
    (fun w =>
       match network w source with
       | None => (Throw EIO, logged (EvFetch source) w)
       | Some items =>
           (Ok (filter (fun article =>
                   Is_true (JS.truthy (Article.title article)
                            && JS.truthy (Article.link article)))
                  (take 20 items)),
            logged (EvFetch source) w)
       end)
    (fun _ => ret []).

(** [sources.map(fetchAndParseRSS)] awaited by [Promise.allSettled], and the
    fulfilled values pushed in the order of [sources]. *)
Fixpoint fetchAll (sources : list NewsSource.t) : M (list Article.t) :=
  match sources with
  | [] => ret []
  | source :: rest =>
      let! articles := fetchAndParseRSS source in
      let! others := fetchAll rest in
      ret (articles ++ others)
  end.

Definition fetchArticlesFromSources (sources : list NewsSource.t)
  : M (list Article.t) :=
  let! allArticles := fetchAll sources in
  let uniqueArticles := removeDuplicates allArticles in
  let sortedArticles := Array_sort byDateDesc uniqueArticles in
  ret sortedArticles.

(* ===================================================================== *)
(** * src/services/NewsService.ts *)
(* ===================================================================== *)

Definition getRefreshing : M bool := fun w => (Ok (isRefreshing w), w).
Definition setRefreshing (b : bool) : M unit := fun w => (Ok tt, withFlag b w).

(** The body of the [try] block of [refreshArticles]. *)
Definition refreshBody (force : bool) : M (list Article.t) :=
  setRefreshing true;;
  let! cacheStillValid :=
    (if negb force
     then let! stats := getCacheStats in
          ret (negb (isExpired stats) && (0 <? articlesCount stats)%nat)
     else ret false) in
  if cacheStillValid then getCachedArticles
  else
    let! freshArticles := fetchArticlesFromSources newsSources in
    if (length freshArticles =? 0)%nat then getCachedArticles
    else
      let! allArticles := addArticles freshArticles in
      let! now := Date_now in
      cacheFeedData newsSources allArticles now;;
      ret allArticles.

Definition refreshArticles (force : bool) : M (list Article.t) :=
  let! refreshing := getRefreshing in
  if refreshing && negb force then getCachedArticles
  else
    tryFinally
      (tryCatch (refreshBody force) (fun _ => getCachedArticles))
      (withFlag false).

Definition getArticles : M (list Article.t) :=
  tryCatch
    (let! articles := getCachedArticles in
     if (length articles =? 0)%nat then refreshArticles false
     else ret articles)
    (fun _ => ret []).

Definition searchArticles (query : string) : M (list Article.t) :=
  tryCatch
    (if negb (JS.truthy query) || (JS.length (JS.trim query) =? 0)%nat
     then ret []
     else searchCachedArticles (JS.trim query))
    (fun _ => ret []).

Definition getLatestArticles (limit : nat) : M (list Article.t) :=
  tryCatch
    (let! articles := getArticles in
     ret (take limit (Array_sort byDateDesc articles)))
    (fun _ => ret []).

Definition getFeaturedArticles : M (list Article.t) :=
  tryCatch
    (let! articles := getLatestArticles 20 in
     let articlesWithImages :=
       filter (fun article => Is_true (Article.hasImage article)) articles in
     let articlesWithoutImages :=
       filter (fun article => Is_true (negb (Article.hasImage article))) articles in
     if (length articlesWithImages =? 0)%nat
     then ret (take 15 articlesWithoutImages)
     else
       let featuredWithImages := take 12 articlesWithImages in
       let remainingSlots := (15 - Z.of_nat (length featuredWithImages))%Z in
       let additionalArticles :=
         take (Z.to_nat (Z.max 0 remainingSlots)) articlesWithoutImages in
       ret (featuredWithImages ++ additionalArticles))
    (fun _ => ret []).

(* ===================================================================== *)
(** * What the cache functions compute *)
(* ===================================================================== *)

Definition addLog (evs : list Event) (w : World) : World :=
  mkWorld (files w) (clock w) (diskFails w) (network w) (isRefreshing w)
    (evs ++ log w).

(** The file is there and younger than the expiry time. *)
Definition fresh (path : string) (w : World) : bool :=
  match files w !! path with
  | Some f => clock w - mtime f <? CACHE_EXPIRY_MS
  | None => false
  end.

(** The snapshot [readCacheFile] returns, as a function of the world. *)
Definition readSnapshot (filename : string) (w : World) : option Snapshot.t :=
  match files w !! getCacheFilePath filename with
  | Some f =>
      if clock w - mtime f <? CACHE_EXPIRY_MS then
        match parsed f with
        | Some data =>
            if bool_decide (Snapshot.version data = Some CACHE_VERSION)
            then Some data else None
        | None => None
        end
      else None
  | None => None
  end.

(** The I/O of [readCacheFile], latest first. *)
Definition readEvents (filename : string) (w : World) : list Event :=
  let path := getCacheFilePath filename in
  if fresh path w then [EvReadFile path; EvStat path] else [EvStat path].

(** The list [getCachedArticles] returns. *)
Definition cachedArticles (w : World) : list Article.t :=
  articlesOrEmpty (readSnapshot "articles.json" w).

Definition isWrite (e : Event) : bool :=
  match e with
  | EvMkdir _ | EvWriteFile _ | EvUnlink _ => true
  | _ => false
  end.

Definition isFetch (e : Event) : bool :=
  match e with
  | EvFetch _ => true
  | _ => false
  end.

Ltac unfoldM :=
  unfold bind, tryCatch, tryFinally, ret, throw, Date_now, getRefreshing,
    setRefreshing in *.

Section CacheFacts.

Implicit Types (w : World) (l : list Article.t).

Lemma addLog_nil w : addLog [] w = w.
Proof. by destruct w. Qed.

Lemma addLog_addLog e1 e2 w : addLog e1 (addLog e2 w) = addLog (e1 ++ e2) w.
Proof. unfold addLog. simpl. by rewrite app_assoc. Qed.

Lemma logged_addLog e w : logged e w = addLog [e] w.
Proof. done. Qed.

Lemma isCacheValid_spec path w :
  isCacheValid path w = (Ok (fresh path w), addLog [EvStat path] w).
Proof.
  unfold isCacheValid, fs_stat, fresh. unfoldM.
  destruct (files w !! path) as [f|]; done.
Qed.

Lemma fresh_addLog path evs w : fresh path (addLog evs w) = fresh path w.
Proof. done. Qed.

Lemma readSnapshot_addLog filename evs w :
  readSnapshot filename (addLog evs w) = readSnapshot filename w.
Proof. done. Qed.

Lemma readCacheFile_spec filename w :
  readCacheFile filename w =
  (Ok (readSnapshot filename w), addLog (readEvents filename w) w).
Proof.
  unfold readCacheFile. unfold tryCatch at 1. unfold bind at 1.
  rewrite isCacheValid_spec.
  unfold readSnapshot, readEvents, fresh, fs_readFile_JSON_parse. unfoldM.
  destruct (files w !! getCacheFilePath filename) as [f|] eqn:Ef; [|done].
  destruct (clock w - mtime f <? CACHE_EXPIRY_MS); [|done]. cbn [negb].
  change (files (addLog _ w)) with (files w). rewrite Ef.
  destruct (parsed f) as [data|]; [|done].
  destruct (bool_decide _); done.
Qed.

Lemma getCachedArticles_spec w :
  getCachedArticles w =
  (Ok (cachedArticles w), addLog (readEvents "articles.json" w) w).
Proof.
  unfold getCachedArticles. unfold tryCatch at 1. unfold bind at 1.
  by rewrite readCacheFile_spec.
Qed.

End CacheFacts.

(* ===================================================================== *)
(** * Facts about [Array.prototype.sort] *)
(* ===================================================================== *)

Section SortFacts.
Context {A : Type} (comparefn : A -> A -> option Z).

Lemma sortInsert_Permutation x (l : list A) : sortInsert comparefn x l ≡ₚ x :: l.
Proof.
  induction l as [|y r IH]; simpl; [done|].
  destruct (_ <=? _); [done|]. rewrite IH. apply Permutation_swap.
Qed.

Lemma Array_sort_Permutation (l : list A) : Array_sort comparefn l ≡ₚ l.
Proof.
  induction l as [|x r IH]; simpl; [done|].
  by rewrite sortInsert_Permutation, IH.
Qed.

Lemma Array_sort_length (l : list A) : length (Array_sort comparefn l) = length l.
Proof. by rewrite Array_sort_Permutation. Qed.

Lemma Array_sort_elem_of x (l : list A) : x ∈ Array_sort comparefn l <-> x ∈ l.
Proof. by rewrite Array_sort_Permutation. Qed.

(** When the comparison is that of a key on the elements at hand (those
    that satisfy [valid]), the result is sorted by the key, largest first. *)
Context (key : A -> Z) (valid : A -> Prop).
Hypothesis comparefn_key :
  forall x y, valid x -> valid y -> sortCompare comparefn x y = key y - key x.

Definition keyGe (x y : A) : Prop := key y <= key x.

Lemma sortInsert_sorted x (l : list A) :
  valid x -> Forall valid l ->
  StronglySorted keyGe l -> StronglySorted keyGe (sortInsert comparefn x l).
Proof.
  intros Hx Hl. induction 1 as [|y r Hr IH Hy]; simpl.
  - repeat constructor.
  - apply Forall_cons in Hl as [Hvy Hl]. rewrite comparefn_key by done.
    destruct (Z.leb_spec (key y - key x) 0) as [Hle|Hgt].
    + constructor; [by constructor|]. constructor; [unfold keyGe; lia|].
      eapply Forall_impl; [exact Hy|]. unfold keyGe. intros; lia.
    + constructor; [by apply IH|].
      rewrite sortInsert_Permutation. constructor; [unfold keyGe; lia|done].
Qed.

Lemma Array_sort_sorted (l : list A) :
  Forall valid l -> StronglySorted keyGe (Array_sort comparefn l).
Proof.
  induction 1 as [|x r Hx Hr IH]; simpl; [constructor|].
  apply sortInsert_sorted; [done| |done].
  by rewrite Array_sort_Permutation.
Qed.

(** A list already in order is left as it is: the sort is stable. *)
Lemma sortInsert_head x (l : list A) :
  valid x -> Forall valid l ->
  Forall (keyGe x) l -> sortInsert comparefn x l = x :: l.
Proof.
  intros Hx Hl H. destruct l as [|y r]; [done|]. simpl.
  apply Forall_cons in Hl as [Hy _]. rewrite comparefn_key by done.
  apply Forall_cons in H as [H _]. unfold keyGe in H.
  destruct (Z.leb_spec (key y - key x) 0); [done|lia].
Qed.

Lemma Array_sort_sorted_id (l : list A) :
  Forall valid l -> StronglySorted keyGe l -> Array_sort comparefn l = l.
Proof.
  intros Hl. induction 1 as [|x r Hr IH Hx]; simpl; [done|].
  apply Forall_cons in Hl as [Hvx Hl].
  rewrite IH by done. by apply sortInsert_head.
Qed.

End SortFacts.

(* ===================================================================== *)
(** * What [addArticles] computes *)
(* ===================================================================== *)

Definition uniqueNewArticles (existing new : list Article.t) : list Article.t :=
  filter (fun article => Article.id article ∉ idSet existing) new.

Definition mergedArticles (existing new : list Article.t) : list Article.t :=
  take MAX_ARTICLES
    (Array_sort byDateDesc (uniqueNewArticles existing new ++ existing)).

Definition articlesPath : string := getCacheFilePath "articles.json".

(** The file [cacheArticles(l)] writes at time [now]. *)
Definition articlesFile (now : Z) (l : list Article.t) : File :=
  mkFile now (Some (Snapshot.mk (Some CACHE_VERSION) (Some now) (Some l) None)).

Section AddArticlesFacts.

Implicit Types (w : World) (l new existing : list Article.t).

Lemma cacheArticles_spec l w :
  cacheArticles l w =
  if diskFails w CACHE_DIR then (Throw EIO, addLog [EvMkdir CACHE_DIR] w)
  else if diskFails w articlesPath
       then (Throw EIO, addLog [EvWriteFile articlesPath; EvMkdir CACHE_DIR] w)
       else (Ok tt,
             addLog [EvWriteFile articlesPath; EvMkdir CACHE_DIR]
               (withFiles (<[articlesPath := articlesFile (clock w) l]> (files w)) w)).
Proof.
  unfold cacheArticles, writeCacheFile, ensureCacheDir, fs_mkdir, fs_writeFile.
  unfoldM. cbn [clock logged diskFails].
  destruct (diskFails w CACHE_DIR); [done|]. cbn [clock logged diskFails].
  fold articlesPath. destruct (diskFails w articlesPath); done.
Qed.

Lemma addArticles_spec new w :
  addArticles new w =
  let existing := cachedArticles w in
  let w0 := addLog (readEvents "articles.json" w) w in
  match uniqueNewArticles existing new with
  | [] => (Ok existing, w0)
  | _ :: _ =>
      match cacheArticles (mergedArticles existing new) w0 with
      | (Ok _, w1) => (Ok (mergedArticles existing new), w1)
      | (Throw e, w1) => (Throw e, w1)
      end
  end.
Proof.
  unfold addArticles. unfold tryCatch at 1. unfold bind at 1.
  rewrite getCachedArticles_spec. cbv zeta.
  fold (uniqueNewArticles (cachedArticles w) new).
  destruct (uniqueNewArticles (cachedArticles w) new) as [|a r] eqn:E; [done|].
  cbn [length Nat.eqb]. unfold bind, ret.
  fold (mergedArticles (cachedArticles w) new). rewrite <- E.
  fold (mergedArticles (cachedArticles w) new).
  by destruct (cacheArticles _ _) as [[[]|e] w1].
Qed.

(** After a write, the cache holds the list written. *)
Lemma cachedArticles_written l w fs :
  files w = <[articlesPath := articlesFile (clock w) l]> fs ->
  cachedArticles w = l.
Proof.
  intros E. unfold cachedArticles, readSnapshot.
  fold articlesPath. rewrite E, lookup_insert_eq. cbn [mtime articlesFile parsed].
  rewrite Z.sub_diag. done.
Qed.

Lemma filter_nil_Forall {A} (P : A -> Prop) `{!forall x, Decision (P x)} (l : list A) :
  Forall (fun x => ~ P x) l -> filter P l = [].
Proof.
  induction 1 as [|x r Hx _ IH]; [done|]. by rewrite filter_cons_False.
Qed.

(** Nothing is new exactly when every id of the input is in the cache. *)
Lemma uniqueNewArticles_nil existing new :
  uniqueNewArticles existing new = [] <->
  forall a, a ∈ new -> Article.id a ∈ Article.id <$> existing.
Proof.
  unfold uniqueNewArticles, idSet. split.
  - intros E a Ha. destruct (decide (Article.id a ∈ Article.id <$> existing)); [done|].
    assert (a ∈ filter (fun article : Article.t =>
              Article.id article ∉ (list_to_set (Article.id <$> existing) : gset string)) new)
      as H by (apply list_elem_of_filter; set_solver).
    rewrite E in H. by apply elem_of_nil in H.
  - intros H. apply filter_nil_Forall. apply Forall_forall. intros a Ha.
    specialize (H a Ha). set_solver.
Qed.

Lemma uniqueNewArticles_fresh existing new a :
  a ∈ uniqueNewArticles existing new ->
  a ∈ new /\ Article.id a ∉ Article.id <$> existing.
Proof.
  unfold uniqueNewArticles, idSet. intros [H ?]%list_elem_of_filter. set_solver.
Qed.

End AddArticlesFacts.

(* ===================================================================== *)
(** * Sample data *)
(* ===================================================================== *)

Module Sample.

Definition article (id title link pubDate : string) (image : option string)
  : Article.t :=
  Article.mk id title "" "" link pubDate None "Feed" "bg-red-600" "general"
    "" image [] 1 None None None None None None.

(** The [n]-th of a series of articles that differ in id, title and link. *)
Definition numbered (pubDate : string) (image : option string) (n : nat)
  : Article.t :=
  let k := JS.str (JSDate.pad 4 (Z.of_nat n)) in
  article ("guid-" +:+ k) ("Story " +:+ k) ("https://example.org/" +:+ k)
    pubDate image.

(** The articles numbered [0] to [n - 1], all published at [pubDate]. *)
Definition series (pubDate : string) (n : nat) : list Article.t :=
  numbered pubDate None <$> seq 0 n.

(** A world with an empty cache directory, a working disk, and feeds without
    items. *)
Definition world (now : Z) : World :=
  mkWorld ∅ now (fun _ => false) (fun _ => Some []) false [].

(** A world whose cache file holds [l], written at time [written]. *)
Definition worldWith (now written : Z) (l : list Article.t) : World :=
  mkWorld {[ articlesPath := articlesFile written l ]} now
    (fun _ => false) (fun _ => Some []) false [].

End Sample.

(* ===================================================================== *)
(** * Merging into the cache *)
(* ===================================================================== *)

(** The publication date is one that [Date] reads. *)
Definition validDate (a : Article.t) : Prop := is_Some (Article.time a).

(** The publication time of an article with a valid date. *)
Definition timeOf (a : Article.t) : Z := default 0 (Article.time a).

(** The ids of a list of articles, in order. *)
Definition ids (l : list Article.t) : list string := Article.id <$> l.

(** The call changed no file and wrote nothing: its only I/O is reading. *)
Definition onlyRead (w w' : World) : Prop :=
  files w' = files w
  /\ exists evs, log w' = evs ++ log w /\ Forall (fun e => isWrite e = false) evs.

Section MergeFacts.

Implicit Types (w : World) (l new existing : list Article.t).

Lemma byDateDesc_key a b :
  validDate a -> validDate b ->
  sortCompare byDateDesc a b = timeOf b - timeOf a.
Proof.
  unfold validDate, timeOf, sortCompare, byDateDesc.
  intros [ta ->] [tb ->]. done.
Qed.

Lemma readEvents_no_write filename w :
  Forall (fun e => isWrite e = false) (readEvents filename w).
Proof. unfold readEvents. destruct (fresh _ _); repeat constructor. Qed.

Lemma onlyRead_addLog_read filename w :
  onlyRead w (addLog (readEvents filename w) w).
Proof. split; [done|]. eexists; split; [done|]. apply readEvents_no_write. Qed.

Lemma mergedArticles_untruncated existing new :
  (length (uniqueNewArticles existing new ++ existing) <= MAX_ARTICLES)%nat ->
  mergedArticles existing new ≡ₚ uniqueNewArticles existing new ++ existing.
Proof.
  intros H. unfold mergedArticles.
  rewrite take_ge by (by rewrite Array_sort_length).
  apply Array_sort_Permutation.
Qed.

Lemma mergedArticles_sublist existing new :
  exists dropped,
    mergedArticles existing new ++ dropped
    = Array_sort byDateDesc (uniqueNewArticles existing new ++ existing).
Proof.
  exists (drop MAX_ARTICLES
            (Array_sort byDateDesc (uniqueNewArticles existing new ++ existing))).
  apply take_drop.
Qed.

Lemma mergedArticles_length existing new :
  (length (mergedArticles existing new) <= MAX_ARTICLES)%nat.
Proof. unfold mergedArticles. rewrite length_take. lia. Qed.

(** Ids stay unique when neither the cache nor the batch repeats one. *)
Lemma uniqueNewArticles_ids_NoDup existing new :
  NoDup (ids new) -> NoDup (ids existing) ->
  NoDup (ids (uniqueNewArticles existing new ++ existing)).
Proof.
  intros Hn He. unfold ids. rewrite fmap_app. apply NoDup_app. split; [|split; [|done]].
  - eapply sublist_NoDup; [exact Hn|]. apply fmap_sublist, sublist_filter.
  - intros i (a & -> & Ha%uniqueNewArticles_fresh)%list_elem_of_fmap. tauto.
Qed.

Lemma mergedArticles_ids_NoDup existing new :
  NoDup (ids new) -> NoDup (ids existing) ->
  NoDup (ids (mergedArticles existing new)).
Proof.
  intros Hn He. unfold mergedArticles.
  eapply sublist_NoDup; [|apply fmap_sublist, sublist_take].
  rewrite Array_sort_Permutation.
  by apply uniqueNewArticles_ids_NoDup.
Qed.

(** The outcomes of [addArticles]. *)
Lemma addArticles_cases new w r w1 :
  addArticles new w = (r, w1) ->
  let existing := cachedArticles w in
  (uniqueNewArticles existing new = [] /\ r = Ok existing
   /\ w1 = addLog (readEvents "articles.json" w) w)
  \/ (uniqueNewArticles existing new <> [] /\ r = Ok (mergedArticles existing new)
      /\ cachedArticles w1 = mergedArticles existing new)
  \/ (uniqueNewArticles existing new <> [] /\ (exists e, r = Throw e)
      /\ cachedArticles w1 = existing).
Proof.
  rewrite addArticles_spec. cbv zeta.
  destruct (uniqueNewArticles (cachedArticles w) new) as [|a u] eqn:E.
  - intros [= <- <-]. by left.
  - rewrite cacheArticles_spec. cbn [diskFails addLog clock files].
    destruct (diskFails w CACHE_DIR).
    { intros [= <- <-]. right; right. split; [done|]. split; [by eexists|done]. }
    destruct (diskFails w articlesPath).
    { intros [= <- <-]. right; right. split; [done|]. split; [by eexists|done]. }
    intros [= <- <-]. right; left. split; [done|]. split; [done|].
    by eapply cachedArticles_written.
Qed.

End MergeFacts.

(** ** C1: merging the same articles twice *)

(** C1 (as the code has it).  Let a merge of [new] return the list [r1].
    Then the cache holds [r1].  If the merge did not cut the list (the new
    articles and the cached ones are at most 1000 together), a second merge of
    [new], run while the cache still reads [r1], returns [r1] again, writes
    nothing and changes no file.  If neither [new] nor the cache repeats an
    id, [r1] repeats none.  And when every article of [new] has its id in the
    cache, [r1] is the cached list as it was and the merge wrote nothing. *)
Theorem C1_merge_twice (w : World) (new r1 : list Article.t) (w1 : World) :
  addArticles new w = (Ok r1, w1) ->
  cachedArticles w1 = r1
  /\ ((length (uniqueNewArticles (cachedArticles w) new ++ cachedArticles w)
       <= MAX_ARTICLES)%nat ->
      forall w2, cachedArticles w2 = r1 ->
        addArticles new w2 = (Ok r1, addLog (readEvents "articles.json" w2) w2)
        /\ onlyRead w2 (addLog (readEvents "articles.json" w2) w2))
  /\ (NoDup (ids new) -> NoDup (ids (cachedArticles w)) -> NoDup (ids r1))
  /\ ((forall a, a ∈ new -> Article.id a ∈ ids (cachedArticles w)) ->
      r1 = cachedArticles w /\ onlyRead w w1).
Proof.
  intros H. pose proof (addArticles_cases _ _ _ _ H) as C. cbv zeta in C.
  destruct C as [(E & [= ->] & ->)|[(E & [= ->] & Hc)|(_ & [e [=]] & _)]].
  - split; [done|]. split; [|split].
    + intros _ w2 H2. split; [|apply onlyRead_addLog_read].
      rewrite addArticles_spec. cbv zeta. by rewrite H2, E.
    + done.
    + intros _. split; [done|apply onlyRead_addLog_read].
  - split; [done|]. split; [|split].
    + intros Hlen w2 H2. split; [|apply onlyRead_addLog_read].
      rewrite addArticles_spec. cbv zeta. rewrite H2.
      replace (uniqueNewArticles (mergedArticles (cachedArticles w) new) new)
        with (@nil Article.t); [done|].
      symmetry. apply uniqueNewArticles_nil. intros a Ha.
      rewrite (mergedArticles_untruncated _ _ Hlen), fmap_app, elem_of_app.
      destruct (decide (Article.id a ∈ Article.id <$> cachedArticles w)); [by right|].
      left. apply list_elem_of_fmap. exists a. split; [done|].
      unfold uniqueNewArticles, idSet. apply list_elem_of_filter. set_solver.
    + apply mergedArticles_ids_NoDup.
    + intros Hall. by apply uniqueNewArticles_nil in Hall.
Qed.

Lemma C1_merge_twice_witness :
  let new := Sample.series "2024-01-05T10:00:00.000Z" 3 in
  let w := Sample.world 1704448800000 in
  let r1 := fst (addArticles new w) in
  let w1 := snd (addArticles new w) in
  r1 = Ok new /\ cachedArticles w1 = new
  /\ addArticles new w1 = (Ok new, addLog (readEvents "articles.json" w1) w1).
Proof.
  cbv zeta.
  assert (H : addArticles (Sample.series "2024-01-05T10:00:00.000Z" 3)
                (Sample.world 1704448800000)
              = (Ok (Sample.series "2024-01-05T10:00:00.000Z" 3),
                 snd (addArticles (Sample.series "2024-01-05T10:00:00.000Z" 3)
                        (Sample.world 1704448800000))))
    by (vm_compute; reflexivity).
  destruct (C1_merge_twice _ _ _ _ H) as (Hc & Hsecond & _).
  split; [by rewrite H|]. split; [exact Hc|].
  apply Hsecond; [vm_compute; lia|exact Hc].
Defined.

(** *** Merging a series that is one article too long *)

Section TruncatedMerge.

Implicit Types (w : World) (l new : list Article.t) (d : string) (n : nat).

Lemma uniqueNewArticles_empty_cache new : uniqueNewArticles [] new = new.
Proof.
  unfold uniqueNewArticles, idSet. induction new as [|a r IH]; [done|].
  rewrite filter_cons_True by set_solver. by rewrite IH.
Qed.

(** Articles of one publication time are left in their order. *)
Lemma Array_sort_same_time t l :
  Forall (fun a => Article.time a = Some t) l -> Array_sort byDateDesc l = l.
Proof.
  intros H. apply (Array_sort_sorted_id byDateDesc timeOf validDate byDateDesc_key).
  - eapply Forall_impl; [exact H|]. intros a Ha. unfold validDate. by rewrite Ha.
  - induction H as [|a r Ha Hr IH]; constructor; [done|].
    eapply Forall_impl; [exact Hr|]. intros b Hb.
    unfold keyGe, timeOf. by rewrite Ha, Hb.
Qed.

(** With a working disk, a merge that finds new articles stores the merged
    list. *)
Lemma addArticles_stores new w :
  uniqueNewArticles (cachedArticles w) new <> [] ->
  diskFails w CACHE_DIR = false -> diskFails w articlesPath = false ->
  cachedArticles (snd (addArticles new w)) = mergedArticles (cachedArticles w) new
  /\ diskFails (snd (addArticles new w)) = diskFails w.
Proof.
  intros Hne H1 H2. rewrite addArticles_spec. cbv zeta.
  destruct (uniqueNewArticles (cachedArticles w) new) as [|a u] eqn:E; [done|].
  rewrite cacheArticles_spec. cbn [diskFails addLog]. rewrite H1, H2. cbn [snd].
  split; [|done]. by eapply cachedArticles_written.
Qed.

Lemma series_S d n :
  Sample.series d (S n) = Sample.series d n ++ [Sample.numbered d None n].
Proof. unfold Sample.series. by rewrite seq_S, fmap_app. Qed.

Lemma series_length d n : length (Sample.series d n) = n.
Proof. unfold Sample.series. by rewrite length_fmap, length_seq. Qed.

Lemma series_time d n :
  Forall (fun a => Article.time a = JSDate.parse d) (Sample.series d n).
Proof. unfold Sample.series. apply Forall_fmap, Forall_forall. by intros k _. Qed.

Lemma series_head d n :
  head (Sample.series d (S n)) = Some (Sample.numbered d None 0).
Proof. done. Qed.

(** The id of the article numbered 1000 differs from those before it. *)
Lemma numbered_id_sixth d n :
  String.get 5 (Article.id (Sample.numbered d None n))
  = Some (JSDate.digitChar (Z.of_nat n / 10 / 10 / 10)).
Proof. done. Qed.

Lemma numbered_id_below_1000 d n :
  (n < 1000)%nat ->
  Article.id (Sample.numbered d None n) <> Article.id (Sample.numbered d None 1000).
Proof.
  intros Hn E. apply (f_equal (String.get 5)) in E.
  rewrite !numbered_id_sixth in E.
  rewrite !Z.div_div, Z.div_small in E by lia. discriminate E.
Qed.

Lemma series_ids_below_1000 d :
  Article.id (Sample.numbered d None 1000) ∉ Article.id <$> Sample.series d 1000.
Proof.
  unfold Sample.series. rewrite <- list_fmap_compose.
  intros (k & E & Hk)%list_elem_of_fmap.
  apply elem_of_seq in Hk. symmetry in E. revert E.
  apply numbered_id_below_1000. lia.
Qed.

(** The articles of a list whose ids are cached are not new. *)
Lemma uniqueNewArticles_cached existing : uniqueNewArticles existing existing = [].
Proof.
  apply uniqueNewArticles_nil. intros a Ha. apply list_elem_of_fmap. eauto.
Qed.

Lemma uniqueNewArticles_app existing l1 l2 :
  uniqueNewArticles existing (l1 ++ l2)
  = uniqueNewArticles existing l1 ++ uniqueNewArticles existing l2.
Proof. apply filter_app. Qed.

Lemma uniqueNewArticles_singleton existing (a : Article.t) :
  Article.id a ∉ Article.id <$> existing -> uniqueNewArticles existing [a] = [a].
Proof.
  intros H. unfold uniqueNewArticles. rewrite filter_cons_True; [done|].
  unfold idSet. by rewrite elem_of_list_to_set.
Qed.

Lemma take_MAX_cons (a : Article.t) l :
  take MAX_ARTICLES (a :: l) = a :: take 999 l.
Proof. done. Qed.

(** The two merges of 1001 articles of one publication time into an empty
    cache. *)
Lemma merge_series_twice d t w :
  JSDate.parse d = Some t ->
  cachedArticles w = [] ->
  diskFails w CACHE_DIR = false -> diskFails w articlesPath = false ->
  let new := Sample.series d 1001 in
  let w1 := snd (addArticles new w) in
  let w2 := snd (addArticles new w1) in
  cachedArticles w1 = Sample.series d 1000
  /\ cachedArticles w2
     = Sample.numbered d None 1000 :: take 999 (Sample.series d 1000).
Proof.
  intros Ht Hc H1 H2. cbv zeta.
  assert (Hsame : Forall (fun a => Article.time a = Some t) (Sample.series d 1001)).
  { rewrite <- Ht. apply series_time. }
  destruct (addArticles_stores (Sample.series d 1001) w) as [E1 D1]; try done.
  { rewrite Hc, uniqueNewArticles_empty_cache. by rewrite series_S. }
  assert (C1 : cachedArticles (snd (addArticles (Sample.series d 1001) w))
               = Sample.series d 1000).
  { rewrite E1, Hc. unfold mergedArticles.
    rewrite uniqueNewArticles_empty_cache, app_nil_r.
    rewrite (Array_sort_same_time t) by done.
    rewrite (series_S d 1000). apply take_app_length'. by rewrite series_length. }
  split; [exact C1|].
  set (w1 := snd (addArticles (Sample.series d 1001) w)) in *.
  assert (U : uniqueNewArticles (Sample.series d 1000) (Sample.series d 1001)
              = [Sample.numbered d None 1000]).
  { rewrite (series_S d 1000), uniqueNewArticles_app, uniqueNewArticles_cached.
    apply uniqueNewArticles_singleton, series_ids_below_1000. }
  destruct (addArticles_stores (Sample.series d 1001) w1) as [E2 _].
  { rewrite C1, U. done. }
  { by rewrite D1. }
  { by rewrite D1. }
  rewrite E2, C1. unfold mergedArticles. rewrite U. cbn [app].
  rewrite (Array_sort_same_time t).
  - apply take_MAX_cons.
  - rewrite (series_S d 1000) in Hsame. apply Forall_app in Hsame as [Hs Hx].
    apply Forall_cons in Hx as [Hx _]. by constructor.
Qed.

End TruncatedMerge.

(** The claim as stated fails once a merge cuts the list.  Merge 1001
    articles of one publication time into an empty cache: the first merge
    keeps the first 1000; the second merge finds the last one missing, puts it
    in front and drops another. *)
Lemma C1_counterexample_truncated_merge :
  let new := Sample.series "2024-01-05T10:00:00.000Z" 1001 in
  let w1 := snd (addArticles new (Sample.world 1704448800000)) in
  let w2 := snd (addArticles new w1) in
  cachedArticles w2 <> cachedArticles w1.
Proof.
  cbv zeta.
  destruct (merge_series_twice "2024-01-05T10:00:00.000Z" 1704448800000
              (Sample.world 1704448800000)) as [E1 E2];
    [vm_compute; reflexivity|reflexivity|reflexivity|reflexivity|].
  rewrite E1, E2. clear E1 E2. intros E. apply (f_equal head) in E. rewrite series_head in E.
  cbn [head] in E. apply (inj Some) in E. apply (f_equal Article.id) in E.
  symmetry in E. revert E. apply numbered_id_below_1000. lia.
Qed.

(** ** C2: bounded retention *)




(** ** C8: ids in the cache *)

(** C8 (the code at the failing input).  Two feeds deliver the same story
    under the same guid, with different titles and links.  The aggregator
    keeps both, since their keys differ; [addArticles] finds neither id in the
    cache and stores both; the cache then holds the id twice.  The refresh of
    the service, run on a network that delivers the two items, ends in that
    state. *)
Theorem C8_repeated_id_in_batch :
  let a := Sample.article "tag:example.org,2024:1" "Markets fall"
             "https://example.org/a?src=rss" "2024-01-05T10:00:00.000Z" None in
  let b := Sample.article "tag:example.org,2024:1" "Markets fall sharply"
             "https://example.org/a?src=top" "2024-01-05T11:00:00.000Z" None in
  let w := Sample.world 1704448800000 in
  let net := mkWorld ∅ 1704448800000 (fun _ => false)
               (fun s => if String.eqb (NewsSource.name s) "BBC News" then Some [a]
                         else if String.eqb (NewsSource.name s) "BBC Politics"
                              then Some [b] else Some [])
               false [] in
  removeDuplicates [a; b] = [a; b]
  /\ fst (addArticles [a; b] w) = Ok [b; a]
  /\ cachedArticles (snd (addArticles [a; b] w)) = [b; a]
  /\ fst (refreshArticles false net) = Ok [b; a]
  /\ cachedArticles (snd (refreshArticles false net)) = [b; a]
  /\ ~ NoDup (ids [b; a]).
Proof.
  cbv zeta. repeat split; try (vm_compute; reflexivity).
  intros H. apply NoDup_cons_1_1 in H. apply H. vm_compute. left.
Qed.

(* ===================================================================== *)
(** * The read API of the service *)
(* ===================================================================== *)

Section ServiceReadFacts.

Implicit Types (w : World) (l : list ascii).

(** With a non-empty cache [getArticles] returns the cached list. *)
Lemma getArticles_cached w :
  cachedArticles w <> [] ->
  getArticles w = (Ok (cachedArticles w), addLog (readEvents "articles.json" w) w).
Proof.
  intros H. unfold getArticles. unfold tryCatch at 1. unfold bind at 1.
  rewrite getCachedArticles_spec.
  destruct (cachedArticles w) as [|a r]; done.
Qed.

Lemma getLatestArticles_cached limit w :
  cachedArticles w <> [] ->
  getLatestArticles limit w =
  (Ok (take limit (Array_sort byDateDesc (cachedArticles w))),
   addLog (readEvents "articles.json" w) w).
Proof.
  intros H. unfold getLatestArticles. unfold tryCatch at 1. unfold bind at 1.
  by rewrite getArticles_cached.
Qed.

(** Trimming leaves nothing exactly when the string is blank. *)
Lemma dropLeading_nil p l : JS.dropLeading p l = [] <-> Forall (fun c => p c = true) l.
Proof.
  induction l as [|c r IH]; simpl; [by split; [constructor|]|].
  destruct (p c) eqn:E.
  - rewrite IH. split; [by constructor|by intros [_ ?]%Forall_cons].
  - split; [done|]. intros [? _]%Forall_cons. congruence.
Qed.

Lemma dropTrailing_nil p l : JS.dropTrailing p l = [] <-> Forall (fun c => p c = true) l.
Proof.
  induction l as [|c r IH]; simpl; [by split; [constructor|]|].
  destruct (JS.dropTrailing p r) as [|d r'] eqn:E.
  - destruct (p c) eqn:Ec.
    + split; [intros _; constructor; [done|by apply IH]|done].
    + split; [done|]. intros [? _]%Forall_cons. congruence.
  - split; [done|]. intros [_ H%IH]%Forall_cons. done.
Qed.

Lemma dropLeading_Forall p l :
  Forall (fun c => p c = true) (JS.dropLeading p l) -> JS.dropLeading p l = [].
Proof.
  induction l as [|c r IH]; simpl; [done|].
  destruct (p c) eqn:E; [done|]. intros [? _]%Forall_cons. congruence.
Qed.

Lemma trimL_nil l : JS.trimL l = [] <-> Forall (fun c => JS.isSpace c = true) l.
Proof.
  unfold JS.trimL. rewrite dropTrailing_nil. split.
  - intros H%dropLeading_Forall. by apply dropLeading_nil.
  - intros H%dropLeading_nil. rewrite H. constructor.
Qed.

Lemma length_str l : JS.length (JS.str l) = length l.
Proof. unfold JS.length, JS.str. induction l; simpl; congruence. Qed.

(** [s.includes(pat)] holds exactly when [pat] is a substring of [s]. *)
Lemma startsWith_spec pat l :
  JS.startsWith pat l = true <-> exists post, l = pat ++ post.
Proof.
  revert l. induction pat as [|p pat IH]; intros l; simpl.
  - split; [by exists l|done].
  - destruct l as [|c r]; [split; [done|by intros [? [=]]]|].
    destruct (Ascii.eqb_spec p c) as [->|Hne].
    + rewrite IH. split; intros [post E]; exists post; [by rewrite E|].
      by inversion E.
    + split; [done|]. intros [post [=]]. done.
Qed.

Lemma includesL_spec pat l :
  JS.includesL pat l = true <-> exists pre post, l = pre ++ pat ++ post.
Proof.
  induction l as [|c r IH].
  - simpl. rewrite orb_false_r, startsWith_spec. split.
    + intros [post E]. by exists [], post.
    + intros (pre & post & E). destruct pre; [by exists post|done].
  - cbn [JS.includesL]. rewrite orb_true_iff, IH, startsWith_spec. split.
    + intros [[post E]|(pre & post & E)].
      * by exists [], post.
      * exists (c :: pre), post. by rewrite E.
    + intros ([|d pre] & post & E).
      * left. by exists post.
      * right. exists pre, post. by inversion E.
Qed.

End ServiceReadFacts.

(** ** C3: the first featured article *)

(** C3 (as the code has it).  Whenever at least one of the 20 most recent
    cached articles has an image (a non-empty [image] field), the list
    [getFeaturedArticles] returns is not empty and its first element has an
    image. *)
Theorem C3_featured_first_has_image (w : World) :
  (exists a, a ∈ take 20 (Array_sort byDateDesc (cachedArticles w))
             /\ Article.hasImage a = true) ->
  exists first rest w',
    getFeaturedArticles w = (Ok (first :: rest), w')
    /\ Article.hasImage first = true
    /\ is_Some (Article.image first).
Proof.
  intros (a & Ha & Hi).
  assert (Hne : cachedArticles w <> []).
  { intros E. rewrite E in Ha. by apply elem_of_nil in Ha. }
  unfold getFeaturedArticles. unfold tryCatch at 1. unfold bind at 1.
  rewrite getLatestArticles_cached by done.
  set (latest := take 20 (Array_sort byDateDesc (cachedArticles w))) in *.
  destruct (filter (fun article => Is_true (Article.hasImage article)) latest)
    as [|first others] eqn:E.
  - assert (a ∈ filter (fun article => Is_true (Article.hasImage article)) latest)
      as H by (apply list_elem_of_filter; by rewrite Hi).
    rewrite E in H. by apply elem_of_nil in H.
  - assert (first ∈ filter (fun article => Is_true (Article.hasImage article)) latest)
      as [Hf _]%list_elem_of_filter by (rewrite E; left).
    cbn [length Nat.eqb take app]. unfold ret.
    eexists first, _, _. split; [reflexivity|].
    apply Is_true_true in Hf. split; [done|].
    unfold Article.hasImage in Hf. by destruct (Article.image first).
Qed.

Lemma C3_featured_first_has_image_witness :
  let w := Sample.worldWith 1704448800000 1704448800000
             [Sample.numbered "2024-01-05T10:00:00.000Z" None 1;
              Sample.numbered "2024-01-04T10:00:00.000Z"
                (Some "https://example.org/2.jpg") 2] in
  exists first rest w',
    getFeaturedArticles w = (Ok (first :: rest), w')
    /\ Article.hasImage first = true
    /\ is_Some (Article.image first).
Proof.
  cbv zeta. apply C3_featured_first_has_image.
  eexists. split; [|shelve]. vm_compute. right. left.
  Unshelve. reflexivity.
Defined.

(** The claim as stated fails when the only article with an image is not
    among the 20 most recent: of 21 cached articles the oldest alone has an
    image, and the first featured article has none. *)
Lemma C3_counterexample_image_beyond_latest :
  let w := Sample.worldWith 1704448800000 1704448800000
             (Sample.series "2024-01-05T10:00:00.000Z" 20 ++
              [Sample.numbered "2024-01-01T10:00:00.000Z"
                 (Some "https://example.org/old.jpg") 20]) in
  (exists a, a ∈ cachedArticles w /\ is_Some (Article.image a))
  /\ exists first rest,
       fst (getFeaturedArticles w) = Ok (first :: rest)
       /\ Article.image first = None.
Proof.
  cbv zeta. split.
  - eexists. split; [|shelve].
    apply list_elem_of_lookup. exists 20%nat. vm_compute. reflexivity.
    Unshelve. by eexists.
  - eexists _, _. split; [vm_compute; reflexivity|reflexivity].
Qed.

(** ** C10: searching *)

(** The articles that match: the lowercased query is a substring of the
    lowercased title, description or content, or of a lowercased tag. *)
Definition matches (lowercaseQuery : string) (a : Article.t) : Prop :=
  let sub (field : string) :=
    exists pre post,
      JS.chars (JS.toLowerCase field) = pre ++ JS.chars lowercaseQuery ++ post in
  sub (Article.title a) \/ sub (Article.description a) \/ sub (Article.content a)
  \/ exists tag, tag ∈ Article.tags a /\ sub tag.

Lemma matchesQuery_matches q a : Is_true (matchesQuery q a) <-> matches q a.
Proof.
  unfold matchesQuery, matches, JS.includes. cbv zeta.
  rewrite !orb_True, !Is_true_true, !includesL_spec.
  assert (T : existsb (fun tag => JS.includesL (JS.chars q)
                         (JS.chars (JS.toLowerCase tag))) (Article.tags a) = true
              <-> exists tag, tag ∈ Article.tags a /\
                    exists pre post,
                      JS.chars (JS.toLowerCase tag) = pre ++ JS.chars q ++ post).
  { rewrite existsb_exists. split.
    - intros (tag & Hin%list_elem_of_In & H%includesL_spec). eauto.
    - intros (tag & Hin%list_elem_of_In & H%includesL_spec). eauto. }
  rewrite T. tauto.
Qed.

(** C10.  For every query that is empty or consists of whitespace only,
    [searchArticles] returns the empty list and leaves the world as it is (no
    file is looked at).  For every other query, the result is the cached list
    filtered, in order, by the match of the trimmed and lowercased query as a
    substring of the lowercased title, description, content or one of the
    tags; the only I/O is the reading of the cache. *)
Theorem C10_search (query : string) (w : World) :
  (Forall (fun c => JS.isSpace c = true) (JS.chars query) ->
   searchArticles query w = (Ok [], w))
  /\ (~ Forall (fun c => JS.isSpace c = true) (JS.chars query) ->
      exists result,
        searchArticles query w
        = (Ok result, addLog (readEvents "articles.json" w) w)
        /\ result = filter (fun a => Is_true
                               (matchesQuery (JS.toLowerCase (JS.trim query)) a))
                      (cachedArticles w)
        /\ (forall a, a ∈ result <->
              a ∈ cachedArticles w /\ matches (JS.toLowerCase (JS.trim query)) a)).
Proof.
  assert (B : (JS.length (JS.trim query) =? 0)%nat = true
              <-> Forall (fun c => JS.isSpace c = true) (JS.chars query)).
  { unfold JS.trim. rewrite length_str, Nat.eqb_eq, <- trimL_nil.
    split; [by intros ?%nil_length_inv|by intros ->]. }
  unfold searchArticles. unfold tryCatch. split.
  - intros H%B. rewrite H, orb_true_r. done.
  - intros H.
    assert (E : (JS.length (JS.trim query) =? 0)%nat = false)
      by (apply not_true_is_false; by intros ?%B).
    rewrite E. clear B E.
    destruct query as [|c q]; [exfalso; apply H; constructor|].
    cbn [JS.truthy negb orb].
    unfold searchCachedArticles. unfold tryCatch at 1. unfold bind at 1.
    rewrite getCachedArticles_spec. unfold ret.
    eexists. split; [reflexivity|]. split; [reflexivity|].
    intros a. rewrite list_elem_of_filter, matchesQuery_matches. tauto.
Qed.

Lemma C10_search_witness :
  let w := Sample.worldWith 1704448800000 1704448800000
             (Sample.series "2024-01-05T10:00:00.000Z" 3) in
  searchArticles "   " w = (Ok [], w)
  /\ exists result,
       searchArticles "  sTORY 0002 " w
       = (Ok result, addLog (readEvents "articles.json" w) w)
       /\ ids result = ["guid-0002"].
Proof.
  cbv zeta. split.
  - apply C10_search. vm_compute. repeat constructor.
  - edestruct (proj2 (C10_search "  sTORY 0002 "
                 (Sample.worldWith 1704448800000 1704448800000
                    (Sample.series "2024-01-05T10:00:00.000Z" 3))))
      as (result & E & _ & _).
    + intros H. apply Forall_cons in H as [_ H]. apply Forall_cons in H as [_ H].
      apply Forall_cons in H as [H _]. discriminate H.
    + exists result. split; [exact E|].
      assert (R : fst (searchArticles "  sTORY 0002 "
                 (Sample.worldWith 1704448800000 1704448800000
                    (Sample.series "2024-01-05T10:00:00.000Z" 3))) = Ok result)
        by (by rewrite E).
      vm_compute in R. injection R as <-. reflexivity.
Defined.

(* ===================================================================== *)
(** * What every cache and aggregator function leaves alone *)
(* ===================================================================== *)

(** [w'] comes from [w] by file writes and logged I/O only: the refresh flag,
    the clock and the behaviour of disk and network are the same, and the
    log has grown. *)
Definition frame (w w' : World) : Prop :=
  isRefreshing w' = isRefreshing w
  /\ clock w' = clock w
  /\ diskFails w' = diskFails w
  /\ network w' = network w
  /\ exists evs, log w' = evs ++ log w.

Definition preserves {A} (R : World -> World -> Prop) (m : M A) : Prop :=
  forall w r w', m w = (r, w') -> R w w'.

(** No outcome of [m] is a thrown error. *)
Definition neverThrows {A} (m : M A) : Prop :=
  forall w, exists a w', m w = (Ok a, w').

Section Frame.

Context (R : World -> World -> Prop).
Hypothesis R_refl : forall w, R w w.
Hypothesis R_trans : forall w1 w2 w3, R w1 w2 -> R w2 w3 -> R w1 w3.

Lemma preserves_ret {A} (a : A) : preserves R (ret a).
Proof. intros w r w' [= <- <-]. apply R_refl. Qed.

Lemma preserves_throw {A} e : preserves R (@throw A e).
Proof. intros w r w' [= <- <-]. apply R_refl. Qed.

Lemma preserves_bind {A B} (m : M A) (k : A -> M B) :
  preserves R m -> (forall a, preserves R (k a)) -> preserves R (bind m k).
Proof.
  intros Hm Hk w r w'. unfold bind. destruct (m w) as [[a|e] w1] eqn:E.
  - intros H. eapply R_trans; [by eapply Hm|by eapply Hk].
  - intros [= <- <-]. by eapply Hm.
Qed.

Lemma preserves_tryCatch {A} (m : M A) (h : Error -> M A) :
  preserves R m -> (forall e, preserves R (h e)) -> preserves R (tryCatch m h).
Proof.
  intros Hm Hh w r w'. unfold tryCatch. destruct (m w) as [[a|e] w1] eqn:E.
  - intros [= <- <-]. by eapply Hm.
  - intros H. eapply R_trans; [by eapply Hm|by eapply Hh].
Qed.

Lemma preserves_if {A} (b : bool) (m1 m2 : M A) :
  preserves R m1 -> preserves R m2 -> preserves R (if b then m1 else m2).
Proof. by destruct b. Qed.

End Frame.

Lemma frame_refl w : frame w w.
Proof. repeat split. by exists []. Qed.

Lemma frame_trans w1 w2 w3 : frame w1 w2 -> frame w2 w3 -> frame w1 w3.
Proof.
  intros (F1 & C1 & D1 & N1 & e1 & L1) (F2 & C2 & D2 & N2 & e2 & L2).
  repeat split; try congruence. exists (e2 ++ e1). by rewrite L2, L1, app_assoc.
Qed.

Lemma frame_addLog evs w : frame w (addLog evs w).
Proof. repeat split. by exists evs. Qed.

Lemma frame_logged e w : frame w (logged e w).
Proof. apply (frame_addLog [e]). Qed.

Lemma frame_log_elem e w w' : frame w w' -> e ∈ log w -> e ∈ log w'.
Proof. intros (_ & _ & _ & _ & evs & ->) H. apply elem_of_app. by right. Qed.

Create HintDb frame.

Section FrameOfFunctions.

Local Hint Resolve frame_refl frame_addLog frame_logged : frame.

Ltac frame_step :=
  first
    [ solve [auto with frame]
    | apply (preserves_bind frame frame_trans)
    | apply (preserves_tryCatch frame frame_trans)
    | apply (preserves_ret frame frame_refl)
    | apply (preserves_throw frame frame_refl)
    | apply preserves_if
    | lazymatch goal with |- forall _, _ => intros ? end ].

Lemma frame_fs_stat path : preserves frame (fs_stat path).
Proof.
  intros w r w'. unfold fs_stat.
  destruct (files w !! path); intros [= <- <-]; auto with frame.
Qed.
Local Hint Resolve frame_fs_stat : frame.

Lemma frame_fs_readFile path : preserves frame (fs_readFile_JSON_parse path).
Proof.
  intros w r w'. unfold fs_readFile_JSON_parse.
  destruct (files w !! path) as [f|]; [destruct (parsed f)|];
    intros [= <- <-]; auto with frame.
Qed.
Local Hint Resolve frame_fs_readFile : frame.

Lemma frame_fs_mkdir path : preserves frame (fs_mkdir path).
Proof.
  intros w r w'. unfold fs_mkdir.
  destruct (diskFails w path); intros [= <- <-]; auto with frame.
Qed.
Local Hint Resolve frame_fs_mkdir : frame.

Lemma frame_fs_writeFile path data : preserves frame (fs_writeFile path data).
Proof.
  intros w r w'. unfold fs_writeFile.
  destruct (diskFails w path); intros [= <- <-]; [auto with frame|].
  repeat split. by exists [EvWriteFile path].
Qed.
Local Hint Resolve frame_fs_writeFile : frame.

Lemma frame_Date_now : preserves frame Date_now.
Proof. intros w r w' [= <- <-]. apply frame_refl. Qed.
Local Hint Resolve frame_Date_now : frame.

Lemma frame_isCacheValid path : preserves frame (isCacheValid path).
Proof.
  unfold isCacheValid. repeat frame_step.
Qed.
Local Hint Resolve frame_isCacheValid : frame.

Lemma frame_readCacheFile filename : preserves frame (readCacheFile filename).
Proof.
  unfold readCacheFile. repeat frame_step.
Qed.
Local Hint Resolve frame_readCacheFile : frame.

Lemma frame_writeCacheFile filename data :
  preserves frame (writeCacheFile filename data).
Proof.
  unfold writeCacheFile, ensureCacheDir. repeat frame_step.
Qed.
Local Hint Resolve frame_writeCacheFile : frame.

Lemma frame_getCachedArticles : preserves frame getCachedArticles.
Proof.
  unfold getCachedArticles. repeat frame_step.
Qed.
Local Hint Resolve frame_getCachedArticles : frame.

Lemma frame_cacheArticles l : preserves frame (cacheArticles l).
Proof.
  unfold cacheArticles. repeat frame_step.
Qed.
Local Hint Resolve frame_cacheArticles : frame.

Lemma frame_addArticles new : preserves frame (addArticles new).
Proof.
  unfold addArticles. repeat frame_step.
Qed.
Local Hint Resolve frame_addArticles : frame.

Lemma frame_cacheFeedData feeds l now : preserves frame (cacheFeedData feeds l now).
Proof.
  unfold cacheFeedData. repeat frame_step.
Qed.
Local Hint Resolve frame_cacheFeedData : frame.

Lemma frame_getCacheStats : preserves frame getCacheStats.
Proof.
  unfold getCacheStats. repeat frame_step.
  destruct a as [d|]; [destruct (Snapshot.articles d)|]; repeat frame_step.
Qed.
Local Hint Resolve frame_getCacheStats : frame.

Lemma frame_fetchAndParseRSS source : preserves frame (fetchAndParseRSS source).
Proof.
  unfold fetchAndParseRSS. repeat frame_step.
  intros w r w'. destruct (network w source); intros [= <- <-]; auto with frame.
Qed.
Local Hint Resolve frame_fetchAndParseRSS : frame.

Lemma frame_fetchAll sources : preserves frame (fetchAll sources).
Proof.
  induction sources as [|s rest IH]; simpl; repeat frame_step.
Qed.
Local Hint Resolve frame_fetchAll : frame.

Lemma frame_fetchArticlesFromSources sources :
  preserves frame (fetchArticlesFromSources sources).
Proof.
  unfold fetchArticlesFromSources. repeat frame_step.
Qed.
Local Hint Resolve frame_fetchArticlesFromSources : frame.

End FrameOfFunctions.

(* ===================================================================== *)
(** * The statistics and the refresh *)
(* ===================================================================== *)

(** The statistics [getCacheStats] reports, as a function of the world. *)
Definition statsOf (w : World) : CacheStats :=
  match readSnapshot "articles.json" w with
  | Some d =>
      match Snapshot.articles d with
      | Some l => mkStats (length l) (orNull (Snapshot.lastUpdated d))
                    (negb (fresh articlesPath w))
      | None => mkStats 0 None true
      end
  | None => mkStats 0 None (negb (fresh articlesPath w))
  end.

(** Every configured source has been asked for its feed. *)
Definition fetchedAll (w : World) : Prop :=
  forall s, s ∈ newsSources -> EvFetch s ∈ log w.

Section RefreshFacts.

Implicit Types (w : World).

Lemma getCacheStats_spec w :
  getCacheStats w =
  (Ok (statsOf w),
   addLog (EvStat articlesPath :: readEvents "articles.json" w) w).
Proof.
  unfold getCacheStats. unfold tryCatch at 1. unfold bind at 1.
  rewrite readCacheFile_spec. unfold bind at 1. rewrite isCacheValid_spec.
  fold articlesPath. rewrite fresh_addLog, addLog_addLog. cbn [app].
  unfold statsOf. destruct (readSnapshot "articles.json" w) as [d|]; [|done].
  destruct (Snapshot.articles d); done.
Qed.

Lemma statsOf_expired w :
  fresh articlesPath w = false -> isExpired (statsOf w) = true.
Proof.
  intros H. unfold statsOf.
  destruct (readSnapshot _ _) as [d|]; [destruct (Snapshot.articles d)|];
    cbn [isExpired]; by rewrite ?H.
Qed.

Lemma fetchAndParseRSS_log source w :
  exists l, fetchAndParseRSS source w = (Ok l, logged (EvFetch source) w).
Proof.
  unfold fetchAndParseRSS, tryCatch, ret.
  destruct (network w source); by eexists.
Qed.

Lemma fetchAll_log sources w r w' :
  fetchAll sources w = (r, w') ->
  (exists l, r = Ok l) /\ forall s, s ∈ sources -> EvFetch s ∈ log w'.
Proof.
  revert w r w'. induction sources as [|s rest IH]; intros w r w'; simpl.
  - intros [= <- <-]. split; [by eexists|]. by intros s ?%elem_of_nil.
  - unfold bind at 1. destruct (fetchAndParseRSS_log s w) as [l ->].
    unfold bind at 1. destruct (fetchAll rest _) as [[l2|e] w2] eqn:E.
    + intros [= <- <-]. split; [by eexists|].
      intros s' [->|Hin]%elem_of_cons.
      * eapply frame_log_elem; [by eapply frame_fetchAll|]. left.
      * by eapply (proj2 (IH _ _ _ E)).
    + destruct (IH _ _ _ E) as [[? [=]] _].
Qed.

Lemma fetchArticlesFromSources_log w r w' :
  fetchArticlesFromSources newsSources w = (r, w') ->
  (exists l, r = Ok l) /\ fetchedAll w'.
Proof.
  unfold fetchArticlesFromSources, bind.
  destruct (fetchAll newsSources w) as [[l|e] w1] eqn:E.
  - intros [= <- <-]. split; [by eexists|]. exact (proj2 (fetchAll_log _ _ _ _ E)).
  - destruct (fetchAll_log _ _ _ _ E) as [[? [=]] _].
Qed.

Lemma fetchedAll_frame w w' : frame w w' -> fetchedAll w -> fetchedAll w'.
Proof. intros F H s Hs. eapply frame_log_elem; eauto. Qed.

(** What follows the fetch in the [try] block. *)
Definition afterFetch (freshArticles : list Article.t) : M (list Article.t) :=
  if (length freshArticles =? 0)%nat then getCachedArticles
  else
    let! allArticles := addArticles freshArticles in
    let! now := Date_now in
    cacheFeedData newsSources allArticles now;;
    ret allArticles.

Lemma frame_afterFetch freshArticles : preserves frame (afterFetch freshArticles).
Proof.
  unfold afterFetch. apply preserves_if; [apply frame_getCachedArticles|].
  apply (preserves_bind frame frame_trans); [apply frame_addArticles|]. intros all.
  apply (preserves_bind frame frame_trans); [apply frame_Date_now|]. intros now.
  apply (preserves_bind frame frame_trans); [apply frame_cacheFeedData|]. intros _.
  apply (preserves_ret frame frame_refl).
Qed.

(** The refresh of an expired or missing cache asks every source. *)
Lemma refreshBody_fetches force w r w' :
  force = true \/ fresh articlesPath w = false ->
  refreshBody force w = (r, w') -> fetchedAll w'.
Proof.
  intros Hexp. unfold refreshBody. unfold bind at 1. unfold setRefreshing.
  unfold bind at 1.
  assert (S : exists w0,
    frame w w0 /\
    (if negb force
     then let! stats := getCacheStats in
          ret (negb (isExpired stats) && (0 <? articlesCount stats)%nat)
     else ret false) (withFlag true w) = (Ok false, withFlag true w0)).
  { destruct force; cbn [negb].
    - exists w. split; [apply frame_refl|done].
    - destruct Hexp as [[=]|Hexp]. unfold bind. rewrite getCacheStats_spec.
      exists (addLog (EvStat articlesPath :: readEvents "articles.json" w) w).
      split; [apply frame_addLog|].
      unfold ret. change (statsOf (withFlag true w)) with (statsOf w).
      by rewrite statsOf_expired. }
  destruct S as (w0 & F0 & ->).
  fold (afterFetch). unfold bind.
  destruct (fetchArticlesFromSources newsSources (withFlag true w0))
    as [[l|e] w1] eqn:E.
  - apply fetchArticlesFromSources_log in E as [_ Q].
    intros H. eapply fetchedAll_frame; [|exact Q].
    by eapply (frame_afterFetch l).
  - intros [= <- <-]. by apply fetchArticlesFromSources_log in E as [_ Q].
Qed.

Lemma refreshArticles_guarded w :
  isRefreshing w = true ->
  refreshArticles false w =
  (Ok (cachedArticles w), addLog (readEvents "articles.json" w) w).
Proof.
  intros H. unfold refreshArticles, bind, getRefreshing. rewrite H. cbn [andb negb].
  apply getCachedArticles_spec.
Qed.

(** Past the guard, the result is that of the [try] block, or the cached
    list when the block throws; the flag is cleared on the way out. *)
Lemma refreshArticles_unguarded force w :
  isRefreshing w && negb force = false ->
  refreshArticles force w =
  match refreshBody force w with
  | (Ok l, w1) => (Ok l, withFlag false w1)
  | (Throw _, w1) =>
      (Ok (cachedArticles w1),
       withFlag false (addLog (readEvents "articles.json" w1) w1))
  end.
Proof.
  intros H. unfold refreshArticles. unfold bind at 1. unfold getRefreshing.
  rewrite H. unfold tryFinally, tryCatch.
  destruct (refreshBody force w) as [[l|e] w1]; [done|].
  by rewrite getCachedArticles_spec.
Qed.

End RefreshFacts.

(** ** C9: when a cache read misses *)




(** ** C5: errors in a refresh *)

(** A refresh under way that throws: the disk refuses every write while a
    feed delivers an article. *)
Definition brokenDisk : World :=
  mkWorld ∅ 1704448800000 (fun _ => true)
    (fun _ => Some [Sample.numbered "2024-01-05T10:00:00.000Z" None 1])
    false [].

(** C5 (as the code has it).  No execution of [refreshArticles] propagates
    an error: it returns a list.  A call that passes the single-flight guard
    (it is forced, or no refresh is in flight) leaves the flag cleared,
    whether the [try] block returned or threw, and when the block threw (in
    the fetch, the merge or the writes) the list returned is the cached list
    read at that point.  A call the guard turns away returns the cached list
    and leaves the flag as it found it, set. *)
Theorem C5_refresh_contains_errors (force : bool) (w : World) :
  exists l w',
    refreshArticles force w = (Ok l, w')
    /\ (isRefreshing w && negb force = false ->
        isRefreshing w' = false
        /\ forall e w1, refreshBody force w = (Throw e, w1) ->
             l = cachedArticles w1 /\ cachedArticles w' = l)
    /\ (isRefreshing w && negb force = true ->
        l = cachedArticles w /\ isRefreshing w' = true).
Proof.
  destruct (isRefreshing w && negb force) eqn:G.
  - apply andb_true_iff in G as [Hr Hf]. destruct force; [done|].
    rewrite refreshArticles_guarded by done. eexists _, _.
    split; [done|]. split; [done|]. intros _. split; [done|exact Hr].
  - rewrite refreshArticles_unguarded by done.
    destruct (refreshBody force w) as [[l|e] w1] eqn:B.
    + eexists _, _. split; [done|]. split; [|done]. intros _. split; [done|].
      intros e w2 [=].
    + eexists _, _. split; [done|]. split; [|done]. intros _. split; [done|].
      intros e' w2 [= <- <-]. done.
Qed.

Lemma C5_refresh_contains_errors_witness :
  (exists e w1, refreshBody true brokenDisk = (Throw e, w1))
  /\ exists l w',
       refreshArticles true brokenDisk = (Ok l, w')
       /\ isRefreshing w' = false /\ l = [].
Proof.
  split; [eexists _, _; vm_compute; reflexivity|].
  destruct (C5_refresh_contains_errors true brokenDisk) as (l & w' & E & H & _).
  exists l, w'. split; [exact E|]. destruct (H eq_refl) as [Hflag Hfall].
  split; [exact Hflag|].
  destruct (Hfall EIO (snd (refreshBody true brokenDisk))) as [-> _];
    vm_compute; reflexivity.
Defined.

(** The claim as stated fails on the exit path of the guard: while a refresh
    is in flight, a second call returns with the flag still set. *)
Lemma C5_counterexample_guard_exit :
  let w := withFlag true (Sample.world 1704448800000) in
  exists l w', refreshArticles false w = (Ok l, w') /\ isRefreshing w' = true.
Proof. cbv zeta. eexists _, _. split; [vm_compute; reflexivity|reflexivity]. Qed.

(* ===================================================================== *)
(** * Refreshes in flight together *)
(* ===================================================================== *)

(** An [async] call runs until its next [await] and then yields; other calls
    run in between.  A call of [refreshArticles] in flight is the [await] it
    stands at; each awaited function of the cache or the aggregator is one
    step. *)
Inductive Pc :=
| AtGuardRead                        (* return await getCachedArticles(), guard *)
| AtStats                            (* await getCacheStats() *)
| AtValidRead                        (* return await getCachedArticles(), cache valid *)
| AtFetch                            (* await fetchArticlesFromSources(newsSources) *)
| AtEmptyRead                        (* return await getCachedArticles(), nothing fetched *)
| AtMerge (freshArticles : list Article.t)     (* await addArticles(freshArticles) *)
| AtFeed (allArticles : list Article.t)        (* await cacheFeedData(feedData) *)
| AtCatchRead                        (* catch: await getCachedArticles() *)
| Returned (articles : list Article.t)
| Failed (e : Error).                (* the error reached the caller *)

(** The call stands inside the [try] block: the flag is set on its behalf and
    it may fetch and write. *)
Definition working (pc : Pc) : bool :=
  match pc with
  | AtStats | AtValidRead | AtFetch | AtEmptyRead | AtMerge _ | AtFeed _
  | AtCatchRead => true
  | AtGuardRead | Returned _ | Failed _ => false
  end.

(** [refreshArticles(force)] up to its first [await]. *)
Definition call (force : bool) (w : World) : Pc * World :=
  if isRefreshing w && negb force then (AtGuardRead, w)
  else ((if negb force then AtStats else AtFetch), withFlag true w).

(** An awaited function inside the [try] block: its value is handed to [k];
    an error goes to the [catch] block. *)
Definition awaitInTry {A} (m : M A) (k : A -> Pc) (w : World) : Pc * World :=
  match m w with
  | (Ok a, w') => (k a, w')
  | (Throw _, w') => (AtCatchRead, w')
  end.

(** [return await m] inside the [try] block; [finally] clears the flag. *)
Definition returnInTry (m : M (list Article.t)) (w : World) : Pc * World :=
  match m w with
  | (Ok l, w') => (Returned l, withFlag false w')
  | (Throw _, w') => (AtCatchRead, w')
  end.

(** The step of a call from one [await] to the next. *)
Definition resume (pc : Pc) (w : World) : Pc * World :=
  match pc with
  | AtGuardRead =>
      match getCachedArticles w with
      | (Ok l, w') => (Returned l, w')
      | (Throw e, w') => (Failed e, w')
      end
  | AtStats =>
      awaitInTry getCacheStats
        (fun stats =>
           if negb (isExpired stats) && (0 <? articlesCount stats)%nat
           then AtValidRead else AtFetch) w
  | AtValidRead => returnInTry getCachedArticles w
  | AtFetch =>
      awaitInTry (fetchArticlesFromSources newsSources)
        (fun freshArticles =>
           if (length freshArticles =? 0)%nat then AtEmptyRead
           else AtMerge freshArticles) w
  | AtEmptyRead => returnInTry getCachedArticles w
  | AtMerge freshArticles => awaitInTry (addArticles freshArticles) AtFeed w
  | AtFeed allArticles =>
      returnInTry
        (let! now := Date_now in
         cacheFeedData newsSources allArticles now;;
         ret allArticles) w
  | AtCatchRead =>
      match getCachedArticles w with
      | (Ok l, w') => (Returned l, withFlag false w')
      | (Throw e, w') => (Failed e, withFlag false w')
      end
  | Returned _ | Failed _ => (pc, w)
  end.

(** The service with its calls in flight. *)
Record System := mkSystem {
  world : World;
  tasks : list Pc;
}.

Inductive Label :=
| Call (force : bool)                 (* someone calls refreshArticles(force) *)
| Resume (i : nat)                    (* the i-th call runs to its next await *)
| Env (now : Z) (disk : string -> bool)
      (net : NewsSource.t -> option (list Article.t)).
                                      (* time passes; disk and network change *)

Definition withEnv (now : Z) (disk : string -> bool)
    (net : NewsSource.t -> option (list Article.t)) (w : World) : World :=
  mkWorld (files w) now disk net (isRefreshing w) (log w).

Definition stepSystem (s : System) (label : Label) : System :=
  match label with
  | Call force =>
      let '(pc, w') := call force (world s) in
      mkSystem w' (tasks s ++ [pc])
  | Resume i =>
      match tasks s !! i with
      | Some pc =>
          let '(pc', w') := resume pc (world s) in
          mkSystem w' (<[i := pc']> (tasks s))
      | None => s
      end
  | Env now disk net => mkSystem (withEnv now disk net (world s)) (tasks s)
  end.

Definition runSystem (s : System) (trace : list Label) : System :=
  fold_left stepSystem trace s.

(** The number of calls that stand inside the [try] block. *)
Definition workingCount (s : System) : nat :=
  length (filter (fun pc => Is_true (working pc)) (tasks s)).

(** A call alone, run from its first [await] to its return. *)
Fixpoint runAlone (fuel : nat) (st : Pc * World) : Pc * World :=
  match fuel with
  | O => st
  | S n => runAlone n (resume (fst st) (snd st))
  end.

Definition outcome (st : Pc * World) : option (Result (list Article.t) * World) :=
  match fst st with
  | Returned l => Some (Ok l, snd st)
  | Failed e => Some (Throw e, snd st)
  | _ => None
  end.

Section MachineFacts.

Implicit Types (w : World) (s : System) (pc : Pc).

Lemma runAlone_S n pc w : runAlone (S n) (pc, w) = runAlone n (resume pc w).
Proof. done. Qed.

Lemma runAlone_Returned n l w : runAlone n (Returned l, w) = (Returned l, w).
Proof. induction n; [done|]. by rewrite runAlone_S. Qed.

(** The [catch] block. *)
Lemma runAlone_catch n w :
  outcome (runAlone (S n) (AtCatchRead, w)) =
  Some (Ok (cachedArticles w),
        withFlag false (addLog (readEvents "articles.json" w) w)).
Proof.
  rewrite runAlone_S. cbn [resume]. rewrite getCachedArticles_spec.
  by rewrite runAlone_Returned.
Qed.

Ltac machine_step :=
  rewrite runAlone_S; cbn [resume]; unfold awaitInTry, returnInTry.

(** Run alone, the steps of a call compose to [refreshArticles]. *)
Lemma runAlone_refreshArticles force w :
  outcome (runAlone 5 (call force w)) = Some (refreshArticles force w).
Proof.
  unfold call. destruct (isRefreshing w && negb force) eqn:G.
  - apply andb_true_iff in G as [Hr Hf]. destruct force; [done|].
    rewrite refreshArticles_guarded by done.
    machine_step. rewrite getCachedArticles_spec. by rewrite runAlone_Returned.
  - rewrite refreshArticles_unguarded by done. clear G.
    unfold refreshBody. unfold bind at 1. unfold setRefreshing.
    set (w0 := withFlag true w). clearbody w0. fold afterFetch.
    assert (F : forall n wf,
      outcome (runAlone (4 + n) (AtFetch, wf)) =
      Some match
        (let! freshArticles := fetchArticlesFromSources newsSources in
         afterFetch freshArticles) wf
      with
      | (Ok l, w1) => (Ok l, withFlag false w1)
      | (Throw _, w1) =>
          (Ok (cachedArticles w1),
           withFlag false (addLog (readEvents "articles.json" w1) w1))
      end).
    { intros n wf. cbn [Nat.add]. machine_step. unfold bind at 1.
      destruct (fetchArticlesFromSources newsSources wf) as [[fresh|e] w1];
        [|apply runAlone_catch].
      unfold afterFetch. destruct (length fresh =? 0)%nat.
      { machine_step. rewrite getCachedArticles_spec.
        by rewrite runAlone_Returned. }
      unfold bind at 1. machine_step.
      destruct (addArticles fresh w1) as [[allArticles|e] w2];
        [|apply runAlone_catch].
      machine_step.
      destruct ((let! now := Date_now in
                 cacheFeedData newsSources allArticles now;; ret allArticles) w2)
        as [[l|e] w3]; [by rewrite runAlone_Returned|apply runAlone_catch]. }
    destruct force; cbn [negb].
    + unfold bind at 1. unfold ret at 1. cbn iota beta. apply (F 1%nat).
    + unfold bind at 1 2. rewrite getCacheStats_spec. unfold ret at 1.
      machine_step. rewrite getCacheStats_spec.
      destruct (negb (isExpired (statsOf w0)) && (0 <? articlesCount (statsOf w0))%nat).
      * machine_step. rewrite getCachedArticles_spec.
        by rewrite runAlone_Returned.
      * apply (F 0%nat).
Qed.

End MachineFacts.

Section SingleFlight.

Implicit Types (w : World) (s : System) (pc : Pc) (l : list Pc).

Lemma frame_flag {A} (m : M A) w r w' :
  preserves frame m -> m w = (r, w') -> isRefreshing w' = isRefreshing w.
Proof. intros P E. by destruct (P _ _ _ E) as (F & _). Qed.

Lemma awaitInTry_flag {A} (m : M A) (k : A -> Pc) w pc' w' :
  preserves frame m -> (forall a, working (k a) = true) ->
  awaitInTry m k w = (pc', w') ->
  working pc' = true /\ isRefreshing w' = isRefreshing w.
Proof.
  intros P K. unfold awaitInTry. destruct (m w) as [[a|e] w1] eqn:E;
    intros [= <- <-]; (split; [done|by eapply frame_flag]).
Qed.

Lemma returnInTry_flag (m : M (list Article.t)) w pc' w' :
  preserves frame m ->
  returnInTry m w = (pc', w') ->
  (working pc' = true /\ isRefreshing w' = isRefreshing w)
  \/ (working pc' = false /\ isRefreshing w' = false).
Proof.
  intros P. unfold returnInTry. destruct (m w) as [[a|e] w1] eqn:E;
    intros [= <- <-]; [by right|].
  left. split; [done|by eapply frame_flag].
Qed.

Lemma frame_feed allArticles :
  preserves frame
    (let! now := Date_now in
     cacheFeedData newsSources allArticles now;; ret allArticles).
Proof.
  apply (preserves_bind frame frame_trans); [apply frame_Date_now|]. intros now.
  apply (preserves_bind frame frame_trans); [apply frame_cacheFeedData|]. intros _.
  apply (preserves_ret frame frame_refl).
Qed.

(** A step of a call outside the [try] block leaves the flag alone; a step
    inside it either stays inside and leaves the flag alone, or leaves the
    block and clears the flag. *)
Lemma resume_flag pc w pc' w' :
  resume pc w = (pc', w') ->
  if working pc
  then (working pc' = true /\ isRefreshing w' = isRefreshing w)
       \/ (working pc' = false /\ isRefreshing w' = false)
  else working pc' = false /\ isRefreshing w' = isRefreshing w.
Proof.
  destruct pc; cbn [resume working].
  - rewrite getCachedArticles_spec. by intros [= <- <-].
  - intros H. left. eapply awaitInTry_flag; [apply frame_getCacheStats| |exact H].
    intros st. cbv beta. by destruct (negb _ && _).
  - apply returnInTry_flag, frame_getCachedArticles.
  - intros H. left.
    eapply awaitInTry_flag; [apply frame_fetchArticlesFromSources| |exact H].
    intros fresh. cbv beta. by destruct (length fresh =? 0)%nat.
  - apply returnInTry_flag, frame_getCachedArticles.
  - intros H. left. eapply awaitInTry_flag; [apply frame_addArticles| |exact H]. done.
  - apply returnInTry_flag, frame_feed.
  - rewrite getCachedArticles_spec. intros [= <- <-]. by right.
  - by intros [= <- <-].
  - by intros [= <- <-].
Qed.

Definition countWorking l : nat :=
  length (filter (fun pc => Is_true (working pc)) l).

Lemma countWorking_cons pc l :
  countWorking (pc :: l) = ((if working pc then 1 else 0) + countWorking l)%nat.
Proof.
  unfold countWorking. rewrite filter_cons.
  destruct (working pc); simpl; by rewrite ?decide_True, ?decide_False by tauto.
Qed.

Lemma countWorking_app l1 l2 :
  countWorking (l1 ++ l2) = (countWorking l1 + countWorking l2)%nat.
Proof. unfold countWorking. by rewrite filter_app, length_app. Qed.

Lemma countWorking_insert l i pc pc' :
  l !! i = Some pc ->
  (countWorking (<[i := pc']> l) + (if working pc then 1 else 0)
   = countWorking l + (if working pc' then 1 else 0))%nat.
Proof.
  revert i. induction l as [|x r IH]; intros [|i]; simpl; try done.
  - intros [= ->]. rewrite !countWorking_cons. lia.
  - intros H. rewrite !countWorking_cons. specialize (IH _ H). lia.
Qed.

(** As many calls stand inside the [try] block as the flag says. *)
Definition flagCounts s : Prop :=
  countWorking (tasks s) = if isRefreshing (world s) then 1%nat else 0%nat.

Lemma flagCounts_step s label :
  label <> Call true -> flagCounts s -> flagCounts (stepSystem s label).
Proof.
  unfold flagCounts. intros Hl I. destruct label as [force|i|now disk net].
  - destruct force; [done|]. unfold stepSystem, call. cbn [negb].
    rewrite andb_true_r. destruct (isRefreshing (world s)) eqn:F;
      cbn [world tasks isRefreshing withFlag]; rewrite countWorking_app, I;
      cbn; rewrite ?F; done.
  - unfold stepSystem. destruct (tasks s !! i) as [pc|] eqn:E; [|done].
    destruct (resume pc (world s)) as [pc' w'] eqn:R. cbn [world tasks].
    pose proof (countWorking_insert _ _ _ pc' E) as C.
    pose proof (resume_flag _ _ _ _ R) as H.
    destruct (working pc) eqn:Wp.
    + assert (isRefreshing (world s) = true) as Ft.
      { destruct (isRefreshing (world s)); [done|].
        pose proof (countWorking_insert _ _ _ AtGuardRead E) as C2.
        rewrite Wp in C2. cbn [working] in C2. lia. }
      rewrite Ft in *. destruct H as [[Hw ->]|[Hw ->]]; rewrite Hw in C; lia.
    + destruct H as [Hw ->]. rewrite Hw in C. lia.
  - done.
Qed.

Lemma flagCounts_run s trace :
  Forall (fun label => label <> Call true) trace ->
  flagCounts s -> flagCounts (runSystem s trace).
Proof.
  unfold runSystem. intros H. revert s.
  induction H as [|label trace Hl _ IH]; intros s I; [done|].
  simpl. apply IH. by apply flagCounts_step.
Qed.

End SingleFlight.

(** ** C4: the single-flight guard *)

(** C4 (as the code has it).  Whenever [refreshArticles(false)] is called
    while the flag is set, it takes the branch of the guard: it returns the
    cached list, read when it is resumed, its only I/O is the reading of the
    cache (no fetch, no write, no file changed), and it leaves the flag set;
    run without interruption it returns the cached list of the moment of the
    call.  And in every run of the service in which no refresh is forced,
    from a state with no call in flight and the flag clear, at most one call
    stands inside the [try] block at any time. *)
Theorem C4_single_flight :
  (forall w, isRefreshing w = true ->
     call false w = (AtGuardRead, w)
     /\ refreshArticles false w
        = (Ok (cachedArticles w), addLog (readEvents "articles.json" w) w))
  /\ (forall w,
        resume AtGuardRead w
        = (Returned (cachedArticles w), addLog (readEvents "articles.json" w) w)
        /\ onlyRead w (addLog (readEvents "articles.json" w) w)
        /\ Forall (fun e => isFetch e = false) (readEvents "articles.json" w)
        /\ isRefreshing (addLog (readEvents "articles.json" w) w) = isRefreshing w)
  /\ (forall s trace,
        tasks s = [] -> isRefreshing (world s) = false ->
        Forall (fun label => label <> Call true) trace ->
        (workingCount (runSystem s trace) <= 1)%nat).
Proof.
  split; [|split].
  - intros w H. split; [|by apply refreshArticles_guarded].
    unfold call. by rewrite H.
  - intros w. cbn [resume]. rewrite getCachedArticles_spec.
    split; [done|]. split; [apply onlyRead_addLog_read|]. split; [|done].
    unfold readEvents. destruct (fresh _ _); repeat constructor.
  - intros s trace Ht Hf Htrace.
    assert (I : flagCounts s) by (unfold flagCounts; by rewrite Ht, Hf).
    pose proof (flagCounts_run s trace Htrace I) as H. unfold flagCounts in H.
    change (workingCount (runSystem s trace))
      with (countWorking (tasks (runSystem s trace))).
    rewrite H. destruct (isRefreshing (world (runSystem s trace))); lia.
Qed.

Lemma C4_single_flight_witness :
  let w := withFlag true (Sample.world 1704448800000) in
  let s := mkSystem (Sample.world 1704448800000) [] in
  refreshArticles false w
  = (Ok (cachedArticles w), addLog (readEvents "articles.json" w) w)
  /\ (workingCount
        (runSystem s [Call false; Call false; Resume 0; Env 1704448900000
                        (fun _ => false) (fun _ => None); Call false; Resume 0;
                      Resume 1; Resume 0; Call false]) <= 1)%nat.
Proof.
  cbv zeta. split.
  - apply (proj1 C4_single_flight). reflexivity.
  - apply (proj2 (proj2 C4_single_flight)); [reflexivity|reflexivity|].
    repeat constructor; discriminate.
Defined.

(** The claim as stated fails once a refresh is forced: a forced call passes
    the guard while another call is in flight, and both stand inside the
    [try] block. *)
Lemma C4_counterexample_forced_overlap :
  let s := mkSystem (Sample.world 1704448800000) [] in
  workingCount (runSystem s [Call false; Call true]) = 2%nat.
Proof. vm_compute. reflexivity. Qed.

(* ===================================================================== *)
(** * Further properties: src/utils/slugify.ts *)
(* ===================================================================== *)

(** The characters a slug is made of: [a-z], [0-9] and the hyphen. *)
Definition isSlugChar (c : ascii) : bool :=
  JS.isLowerAZ c || JS.isDigit c || JS.isHyphen c.

(** The shape of a slug: slug characters only, at most 100 of them, no hyphen
    at either end and no two hyphens in a row. *)
Definition SlugShape (l : list ascii) : Prop :=
  Forall (fun c => isSlugChar c = true) l
  /\ (length l <= 100)%nat
  /\ head l <> Some "-"%char
  /\ last l <> Some "-"%char
  /\ (forall pre post, l <> pre ++ "-"%char :: "-"%char :: post).

(** No hyphen is followed by a hyphen. *)
Fixpoint noDoubleHyphen (l : list ascii) : bool :=
  match l with
  | c :: r =>
      match r with
      | d :: _ => negb (JS.isHyphen c && JS.isHyphen d) && noDoubleHyphen r
      | [] => true
      end
  | [] => true
  end.

Section SlugShapeFacts.

Implicit Types (l x y z : list ascii) (c d : ascii) (p : ascii -> bool).

Lemma forall_ascii (P : ascii -> Prop) :
  (forall b0 b1 b2 b3 b4 b5 b6 b7, P (Ascii b0 b1 b2 b3 b4 b5 b6 b7)) -> forall c, P c.
Proof. intros H [b0 b1 b2 b3 b4 b5 b6 b7]. apply H. Qed.

Ltac ascii_cases :=
  let c := fresh "c" in
  intros c; pattern c; revert c; apply forall_ascii;
  intros [] [] [] [] [] [] [] []; cbv; intuition discriminate.

(** Lowercasing leaves no capital letter, and changes no slug character. *)
Lemma lowerChar_not_upper c : JS.isUpper (JS.lowerChar c) = false.
Proof. revert c. ascii_cases. Qed.

Lemma lowerChar_slug c : isSlugChar c = true -> JS.lowerChar c = c.
Proof. revert c. ascii_cases. Qed.

Lemma isSlugChar_classes c :
  isSlugChar c = true ->
  JS.isSpace c = false /\ isSpaceOrUnderscore c = false /\ notWordOrHyphen c = false.
Proof. revert c. ascii_cases. Qed.

Lemma word_lower_slug c :
  JS.isWord (JS.lowerChar c) || JS.isHyphen (JS.lowerChar c) = true ->
  isSpaceOrUnderscore (JS.lowerChar c) = false ->
  isSlugChar (JS.lowerChar c) = true.
Proof. revert c. ascii_cases. Qed.

Lemma isHyphen_iff c : JS.isHyphen c = true <-> c = "-"%char.
Proof. split; [apply isHyphen_eq|by intros ->]. Qed.

(** What [replaceRuns] lets through. *)
Lemma replaceRuns_Forall (Q : ascii -> Prop) p by_ b l :
  Forall Q by_ ->
  Forall (fun c => p c = false -> Q c) l ->
  Forall Q (JS.replaceRuns p by_ b l).
Proof.
  intros Hby H. revert b. induction H as [|c r Hc _ IH]; intros b; simpl; [done|].
  destruct (p c) eqn:E.
  - destruct b; [apply IH|]. apply Forall_app. split; [done|apply IH].
  - constructor; [by apply Hc|apply IH].
Qed.

Lemma replaceRuns_id p by_ b l :
  Forall (fun c => p c = false) l -> JS.replaceRuns p by_ b l = l.
Proof.
  intros H. revert b. induction H as [|c r Hc _ IH]; intros b; simpl; [done|].
  by rewrite Hc, IH.
Qed.

(** The parts [dropLeading] and [dropTrailing] keep. *)
Lemma dropLeading_suffix p l : exists pre, l = pre ++ JS.dropLeading p l.
Proof.
  induction l as [|c r [pre IH]]; simpl; [by exists []|].
  destruct (p c); [|by exists []]. exists (c :: pre). simpl. by f_equal.
Qed.

Lemma dropTrailing_prefix p l : exists post, l = JS.dropTrailing p l ++ post.
Proof.
  induction l as [|c r [post IH]]; simpl; [by exists []|].
  destruct (JS.dropTrailing p r) as [|d r'] eqn:E.
  - destruct (p c); [by exists (c :: r)|]. exists post. simpl in *. by f_equal.
  - exists post. simpl. by f_equal.
Qed.

Lemma dropLeading_head p l c : head (JS.dropLeading p l) = Some c -> p c = false.
Proof.
  induction l as [|d r IH]; simpl; [done|].
  destruct (p d) eqn:E; [done|]. by intros [= <-].
Qed.

Lemma dropTrailing_last p l c : last (JS.dropTrailing p l) = Some c -> p c = false.
Proof.
  induction l as [|d r IH] using rev_ind; [done|].
  rewrite dropTrailing_snoc. destruct (p d) eqn:E; [done|].
  rewrite last_snoc. by intros [= <-].
Qed.

Lemma dropLeading_id p l :
  (forall c, head l = Some c -> p c = false) -> JS.dropLeading p l = l.
Proof. destruct l as [|c r]; [done|]. intros H. simpl. by rewrite (H c). Qed.

Lemma dropTrailing_id p l :
  (forall c, last l = Some c -> p c = false) -> JS.dropTrailing p l = l.
Proof.
  destruct l as [|c r _] using rev_ind; [done|]. intros H.
  rewrite dropTrailing_snoc, (H c); [done|]. by rewrite last_snoc.
Qed.

(** Hyphens in a row. *)
Lemma noDoubleHyphen_cons c d r :
  noDoubleHyphen (c :: d :: r)
  = negb (JS.isHyphen c && JS.isHyphen d) && noDoubleHyphen (d :: r).
Proof. done. Qed.

Lemma noDoubleHyphen_app l1 l2 :
  noDoubleHyphen (l1 ++ l2) = true ->
  noDoubleHyphen l1 = true /\ noDoubleHyphen l2 = true.
Proof.
  induction l1 as [|c r IH]; [done|].
  destruct r as [|d r'].
  - destruct l2 as [|e l2']; [done|]. cbn [app]. rewrite noDoubleHyphen_cons.
    by intros [_ ?]%andb_true_iff.
  - cbn [app] in *. rewrite !noDoubleHyphen_cons.
    intros [H1 H2]%andb_true_iff. destruct (IH H2) as [Hr Hl2].
    split; [|done]. by rewrite H1, Hr.
Qed.

Lemma noDoubleHyphen_spec l :
  noDoubleHyphen l = true <-> forall pre post, l <> pre ++ "-"%char :: "-"%char :: post.
Proof.
  split.
  - intros H pre post ->. apply noDoubleHyphen_app in H as [_ H]. discriminate H.
  - induction l as [|c r IH]; [done|]. intros H. destruct r as [|d r']; [done|].
    rewrite noDoubleHyphen_cons. apply andb_true_iff. split.
    + apply negb_true_iff, not_true_is_false.
      intros [->%isHyphen_eq ->%isHyphen_eq]%andb_true_iff. by apply (H [] r').
    + apply IH. intros pre post E. apply (H (c :: pre) post). by rewrite E.
Qed.

Lemma collapse_noDouble b x :
  noDoubleHyphen (JS.replaceRuns JS.isHyphen hyphen b x) = true
  /\ (b = true ->
      forall c, head (JS.replaceRuns JS.isHyphen hyphen b x) = Some c ->
                JS.isHyphen c = false).
Proof.
  revert b. induction x as [|c r IH]; intros b; [done|].
  cbn [JS.replaceRuns]. destruct (JS.isHyphen c) eqn:E.
  - destruct (IH true) as [N Hh]. destruct b; [done|]. split; [|done].
    cbn [hyphen app]. destruct (JS.replaceRuns JS.isHyphen hyphen true r)
      as [|d r'] eqn:Er; [done|].
    rewrite noDoubleHyphen_cons, N, (Hh eq_refl d) by done. by rewrite andb_false_r.
  - destruct (IH false) as [N _]. split; [|by intros _ d [= <-]].
    destruct (JS.replaceRuns JS.isHyphen hyphen false r) as [|d r'] eqn:Er; [done|].
    by rewrite noDoubleHyphen_cons, N, E.
Qed.

Lemma collapseHyphens_id l : noDoubleHyphen l = true -> JS.collapseHyphens l = l.
Proof.
  induction l as [|c r IH]; [done|]. destruct r as [|d r']; [done|].
  rewrite noDoubleHyphen_cons. intros [H1%negb_true_iff H2]%andb_true_iff.
  change (JS.collapseHyphens (c :: d :: r'))
    with (if JS.isHyphen c && JS.isHyphen d then JS.collapseHyphens (d :: r')
          else c :: JS.collapseHyphens (d :: r')).
  by rewrite H1, IH.
Qed.

End SlugShapeFacts.

Section SlugifyShape.

Implicit Types (l : list ascii) (c : ascii).

Lemma head_app_Some l post c : head l = Some c -> head (l ++ post) = Some c.
Proof. by destruct l. Qed.

Lemma slugifyL_shape l : SlugShape (slugifyL l).
Proof.
  rewrite slugifyL_spec.
  unfold SlugSpec.strip_trailing_hyphen, SlugSpec.cap, fromBlanks, afterBlanks,
    SlugSpec.trim_hyphens, SlugSpec.collapse_hyphens, SlugSpec.strip_non_word,
    SlugSpec.collapse_blank_to_hyphen, SlugSpec.lowercase.
  set (y := JS.replaceRuns isSpaceOrUnderscore hyphen false (JS.toLowerCaseL l)).
  set (s := filter (fun c => Is_true (JS.isWord c || JS.isHyphen c)) y).
  set (k := JS.replaceRuns JS.isHyphen hyphen false s).
  set (t := JS.dropTrailing JS.isHyphen (JS.dropLeading JS.isHyphen k)).
  set (u := take 100 t).
  destruct (dropTrailing_prefix JS.isHyphen u) as [post1 Hu].
  destruct (dropTrailing_prefix JS.isHyphen (JS.dropLeading JS.isHyphen k))
    as [post2 Ht]. fold t in Ht.
  destruct (dropLeading_suffix JS.isHyphen k) as [pre Hk].
  assert (Hut : t = u ++ drop 100 t) by (symmetry; apply take_drop).
  set (v := JS.dropTrailing JS.isHyphen u) in *.
  (* the characters *)
  assert (Fy : Forall (fun c => c = "-"%char
                \/ (exists c0, c = JS.lowerChar c0) /\ isSpaceOrUnderscore c = false) y).
  { apply replaceRuns_Forall; [repeat constructor; by left|].
    unfold JS.toLowerCaseL. apply Forall_forall.
    intros c (c0 & -> & _)%list_elem_of_fmap Hc. right. eauto. }
  assert (Fs : Forall (fun c => isSlugChar c = true) s).
  { apply Forall_forall. intros c [Hw Hc]%list_elem_of_filter.
    rewrite Forall_forall in Fy. destruct (Fy c Hc) as [->|[[c0 ->] Hb]]; [done|].
    apply word_lower_slug; [by apply Is_true_true|done]. }
  assert (Fk : Forall (fun c => isSlugChar c = true) k).
  { apply replaceRuns_Forall; [by repeat constructor|].
    eapply Forall_impl; [exact Fs|]. done. }
  assert (Ft : Forall (fun c => isSlugChar c = true) t).
  { rewrite Hk in Fk. apply Forall_app in Fk as [_ Fk].
    rewrite Ht in Fk. by apply Forall_app in Fk as [Fk _]. }
  assert (Fu : Forall (fun c => isSlugChar c = true) u) by by apply Forall_take.
  (* hyphens in a row *)
  assert (Nk : noDoubleHyphen k = true) by apply collapse_noDouble.
  assert (Nv : noDoubleHyphen v = true).
  { rewrite Hk in Nk. apply noDoubleHyphen_app in Nk as [_ Nk].
    rewrite Ht in Nk. apply noDoubleHyphen_app in Nk as [Nk _].
    rewrite Hut in Nk. apply noDoubleHyphen_app in Nk as [Nk _].
    rewrite Hu in Nk. by apply noDoubleHyphen_app in Nk as [Nk _]. }
  split; [|split; [|split; [|split]]].
  - rewrite Hu in Fu. by apply Forall_app in Fu as [Fu _].
  - apply (f_equal length) in Hu. rewrite length_app in Hu.
    assert (length u <= 100)%nat by (unfold u; rewrite length_take; lia). lia.
  - intros Hv. apply (head_app_Some _ post1) in Hv. rewrite <- Hu in Hv.
    apply (head_app_Some _ (drop 100 t)) in Hv. rewrite <- Hut in Hv.
    apply (head_app_Some _ post2) in Hv. rewrite <- Ht in Hv.
    by apply dropLeading_head in Hv.
  - intros Hv. by apply dropTrailing_last in Hv.
  - by apply noDoubleHyphen_spec.
Qed.

Lemma slugifyL_fixed l : SlugShape l -> slugifyL l = l.
Proof.
  intros (F & Hlen & Hhead & Hlast & Hdouble).
  assert (Hh : forall p, (forall c, isSlugChar c = true -> c <> "-"%char -> p c = false) ->
                         forall c, head l = Some c -> p c = false).
  { intros p Hp c Hc. apply Hp; [|by intros ->].
    rewrite Forall_forall in F. apply F. destruct l; [done|].
    injection Hc as <-. left. }
  assert (Hl : forall p, (forall c, isSlugChar c = true -> c <> "-"%char -> p c = false) ->
                         forall c, last l = Some c -> p c = false).
  { intros p Hp c Hc. apply Hp; [|by intros ->].
    rewrite Forall_forall in F. apply F. by apply last_Some_elem_of. }
  assert (Sp : forall c, isSlugChar c = true -> c <> "-"%char -> JS.isSpace c = false).
  { intros c Hc _. by apply isSlugChar_classes. }
  assert (Hy : forall c, isSlugChar c = true -> c <> "-"%char -> JS.isHyphen c = false).
  { intros c _ Hc. apply not_true_is_false. by intros ?%isHyphen_eq. }
  unfold slugifyL. cbv zeta.
  replace (JS.toLowerCaseL l) with l.
  2:{ unfold JS.toLowerCaseL. symmetry. rewrite <- (map_id l) at 2.
      apply map_ext_Forall. eapply Forall_impl; [exact F|].
      intros c Hc. by apply lowerChar_slug. }
  unfold JS.trimL. rewrite (dropLeading_id JS.isSpace l) by by apply Hh.
  rewrite (dropTrailing_id JS.isSpace l) by by apply Hl.
  rewrite (replaceRuns_id isSpaceOrUnderscore).
  2:{ eapply Forall_impl; [exact F|]. intros c Hc. by apply isSlugChar_classes. }
  rewrite (replaceRuns_id notWordOrHyphen).
  2:{ eapply Forall_impl; [exact F|]. intros c Hc. by apply isSlugChar_classes. }
  rewrite collapseHyphens_id by by apply noDoubleHyphen_spec.
  rewrite (dropLeading_id JS.isHyphen l) by by apply Hh.
  rewrite (dropTrailing_id JS.isHyphen l) by by apply Hl.
  unfold JS.substring0. rewrite take_ge by done.
  apply dropTrailing_id. by apply Hl.
Qed.

Lemma SlugShape_nil : SlugShape [].
Proof.
  split; [constructor|]. split; [cbn; lia|]. split; [done|]. split; [done|].
  by apply noDoubleHyphen_spec.
Qed.

End SlugifyShape.

(** X1.  Whatever the text, the slug [slugify] returns is made of the
    characters [a-z], [0-9] and the hyphen only, is at most 100 characters
    long, neither starts nor ends with a hyphen, and has no two hyphens in a
    row. *)
Theorem X1_slugify_shape (text : string) : SlugShape (JS.chars (slugify text)).
Proof.
  unfold slugify. destruct text as [|c t]; cbn [JS.truthy negb].
  - apply SlugShape_nil.
  - rewrite chars_str. apply slugifyL_shape.
Qed.

(** X2.  [slugify] leaves every string of the slug shape as it is; hence
    slugifying twice is slugifying once. *)
Theorem X2_slugify_idempotent :
  (forall s : string, SlugShape (JS.chars s) -> slugify s = s)
  /\ (forall text : string, slugify (slugify text) = slugify text).
Proof.
  assert (Fix : forall s : string, SlugShape (JS.chars s) -> slugify s = s).
  { intros s H. unfold slugify. destruct s as [|c t]; [done|].
    cbn [JS.truthy negb]. rewrite slugifyL_fixed by done. apply str_chars. }
  split; [exact Fix|]. intros text. apply Fix.
  unfold slugify. destruct text as [|c t]; cbn [JS.truthy negb].
  - apply SlugShape_nil.
  - rewrite chars_str. apply slugifyL_shape.
Qed.

Lemma X2_slugify_idempotent_witness :
  SlugShape (JS.chars "fed-raises-rates-2024")
  /\ slugify "fed-raises-rates-2024" = "fed-raises-rates-2024".
Proof.
  assert (H : SlugShape (JS.chars "fed-raises-rates-2024")).
  { split; [repeat constructor|]. split; [cbn; lia|].
    split; [discriminate|]. split; [discriminate|].
    by apply noDoubleHyphen_spec. }
  split; [exact H|]. by apply (proj1 X2_slugify_idempotent).
Defined.

(** ** generateUniqueSlug *)

From Stdlib Require Import DecimalString DecimalNat.

(** [`${counter}`] for a counter that is a natural number: its decimal
    digits. *)
Definition numberToString (n : nat) : string :=
  NilEmpty.string_of_uint (Nat.to_uint n).

(** [generateUniqueSlug(baseSlug, existingSlugs)].  [base] is
    [slugify(baseSlug)]; the [while] loop runs for at most [fuel] turns beyond
    its first test, and [None] tells that it was still running then. *)
Fixpoint generateUniqueSlug_loop (fuel : nat) (base slug : string) (counter : nat)
    (existingSlugs : list string) : option string :=
  if bool_decide (slug ∈ existingSlugs)
  then match fuel with
       | O => None
       | S fuel' =>
           generateUniqueSlug_loop fuel' base
             (base +:+ "-" +:+ numberToString counter) (S counter) existingSlugs
       end
  else Some slug.

Definition generateUniqueSlug (fuel : nat) (baseSlug : string)
    (existingSlugs : list string) : option string :=
  generateUniqueSlug_loop fuel (slugify baseSlug) (slugify baseSlug) 1 existingSlugs.

(** The slug tried in the [k]-th place: the slug itself, then the slug with
    [-1], [-2], ... appended. *)
Definition candidate (base : string) (k : nat) : string :=
  match k with
  | O => base
  | S _ => base +:+ "-" +:+ numberToString k
  end.

Section UniqueSlugFacts.

Implicit Types (base : string) (existing : list string) (k j fuel : nat).

Lemma numberToString_inj n m : numberToString n = numberToString m -> n = m.
Proof.
  unfold numberToString. intros E.
  apply (f_equal NilEmpty.uint_of_string) in E. rewrite !NilEmpty.usu in E.
  injection E as E. apply (f_equal Nat.of_uint) in E.
  by rewrite !Unsigned.of_to in E.
Qed.

Lemma append_inj_r (s t1 t2 : string) : s +:+ t1 = s +:+ t2 -> t1 = t2.
Proof. induction s as [|c s IH]; simpl; [done|]. intros [= E]. by apply IH. Qed.

Lemma append_longer (s t : string) c : s <> s +:+ String c t.
Proof. induction s as [|d s IH]; simpl; [done|]. intros [= E]. by apply IH. Qed.

Lemma candidate_inj base k j : candidate base k = candidate base j -> k = j.
Proof.
  destruct k as [|k], j as [|j]; cbn [candidate]; [done| | |].
  - intros E. by apply append_longer in E.
  - intros E. symmetry in E. by apply append_longer in E.
  - intros E%append_inj_r. apply (append_inj_r "-") in E.
    by apply numberToString_inj.
Qed.

(** The loop, started at the [j]-th candidate, returns the first candidate
    from [j] on that is free, or runs out of fuel over taken candidates. *)
Lemma generateUniqueSlug_loop_spec fuel base j existing :
  match generateUniqueSlug_loop fuel base (candidate base j) (S j) existing with
  | Some s =>
      exists k, (j <= k <= j + fuel)%nat /\ s = candidate base k /\ (s ∉ existing)
                /\ forall i, (j <= i < k)%nat -> candidate base i ∈ existing
  | None => forall i, (j <= i <= j + fuel)%nat -> candidate base i ∈ existing
  end.
Proof.
  revert j. induction fuel as [|fuel IH]; intros j; cbn [generateUniqueSlug_loop].
  - destruct (bool_decide_reflect (candidate base j ∈ existing)) as [Hin|Hout].
    + intros i Hi. by replace i with j by lia.
    + exists j. repeat split; [lia|lia|done|]. intros i Hi. lia.
  - destruct (bool_decide_reflect (candidate base j ∈ existing)) as [Hin|Hout].
    + specialize (IH (S j)). cbn [candidate] in IH.
      destruct (generateUniqueSlug_loop fuel base _ (S (S j)) existing) as [s|].
      * destruct IH as (k & Hk & -> & Hfree & Hall). exists k.
        repeat split; [lia|lia|done|]. intros i Hi.
        destruct (decide (i = j)) as [->|Hne]; [done|]. apply Hall. lia.
      * intros i Hi. destruct (decide (i = j)) as [->|Hne]; [done|]. apply IH. lia.
    + exists j. repeat split; [lia|lia|done|]. intros i Hi. lia.
Qed.

(** More candidates than existing slugs cannot all be taken. *)
Lemma candidates_not_all_taken base existing :
  ~ forall i, (i <= length existing)%nat -> candidate base i ∈ existing.
Proof.
  intros H.
  assert (N : NoDup (candidate base <$> seq 0 (S (length existing)))).
  { apply NoDup_fmap_2_strong; [|apply NoDup_seq].
    intros x y _ _. apply candidate_inj. }
  assert (S : candidate base <$> seq 0 (S (length existing)) ⊆ existing).
  { intros s (i & -> & Hi%elem_of_seq)%list_elem_of_fmap. apply H. lia. }
  pose proof (submseteq_length _ _ (NoDup_submseteq _ _ N S)) as L.
  rewrite length_fmap, length_seq in L. lia.
Qed.

End UniqueSlugFacts.

(** X3.  [generateUniqueSlug] ends after at most as many turns of its loop
    as there are existing slugs, and returns a slug that is not among them:
    the slugified base if that is free, and otherwise the slugified base with
    [-k] appended for the least [k >= 1] that gives a free slug.  More fuel
    does not change the result. *)
Theorem X3_generateUniqueSlug (baseSlug : string) (existingSlugs : list string) :
  exists s k,
    (forall fuel, (length existingSlugs <= fuel)%nat ->
       generateUniqueSlug fuel baseSlug existingSlugs = Some s)
    /\ (s ∉ existingSlugs)
    /\ s = candidate (slugify baseSlug) k
    /\ (k <= length existingSlugs)%nat
    /\ forall i, (i < k)%nat -> candidate (slugify baseSlug) i ∈ existingSlugs.
Proof.
  pose proof (generateUniqueSlug_loop_spec (length existingSlugs)
                (slugify baseSlug) 0 existingSlugs) as H.
  cbn [candidate] in H.
  destruct (generateUniqueSlug_loop (length existingSlugs) _ _ 1 existingSlugs)
    as [s|] eqn:E.
  2:{ exfalso. apply (candidates_not_all_taken (slugify baseSlug) existingSlugs).
      intros i Hi. apply H. lia. }
  destruct H as (k & Hk & -> & Hfree & Hall).
  exists (candidate (slugify baseSlug) k), k.
  split; [|split; [done|split; [done|split; [lia|]]]].
  - intros fuel Hfuel.
    pose proof (generateUniqueSlug_loop_spec fuel (slugify baseSlug) 0 existingSlugs)
      as H'. cbn [candidate] in H'. unfold generateUniqueSlug.
    destruct (generateUniqueSlug_loop fuel _ _ 1 existingSlugs) as [s'|].
    + destruct H' as (k' & Hk' & -> & Hfree' & Hall'). f_equal. f_equal.
      destruct (Nat.lt_trichotomy k' k) as [Hlt|[->|Hgt]]; [|done|].
      * exfalso. apply Hfree'. apply Hall. lia.
      * exfalso. apply Hfree. apply Hall'. lia.
    + exfalso. apply Hfree. apply H'. lia.
  - intros i Hi. apply Hall. lia.
Qed.

Example generateUniqueSlug_demo :
  generateUniqueSlug 2 "Hello World" ["hello-world"; "hello-world-1"]
  = Some "hello-world-2".
Proof. vm_compute. reflexivity. Qed.

(* ===================================================================== *)
(** * Further properties: the aggregator of src/utils/rssParser.ts *)
(* ===================================================================== *)

(** The articles one source contributes: those of its first 20 items that
    have a title and a link; none when the request or the parser fails. *)
Definition sourceArticles (w : World) (source : NewsSource.t) : list Article.t :=
  match network w source with
  | Some items =>
      filter (fun article =>
                Is_true (JS.truthy (Article.title article)
                         && JS.truthy (Article.link article)))
        (take 20 items)
  | None => []
  end.

Section AggregatorFacts.

Implicit Types (w : World) (l : list Article.t) (seen : gset string)
  (sources : list NewsSource.t).

Lemma keepNew_id seen l :
  NoDup (dedupKey <$> l) ->
  (forall a, a ∈ l -> dedupKey a ∉ seen) ->
  keepNew seen l = l.
Proof.
  revert seen. induction l as [|a r IH]; intros seen N H; [done|].
  rewrite fmap_cons in N. apply NoDup_cons in N as [Ha N].
  cbn [keepNew]. rewrite decide_False by (apply H; left).
  f_equal. apply IH; [done|]. intros b Hb.
  assert (dedupKey b <> dedupKey a).
  { intros E. apply Ha. rewrite <- E. apply list_elem_of_fmap. eauto. }
  assert (dedupKey b ∉ seen) by (apply H; by right). set_solver.
Qed.

Lemma removeDuplicates_id l : NoDup (dedupKey <$> l) -> removeDuplicates l = l.
Proof. intros N. rewrite removeDuplicates_keepNew. apply keepNew_id; [done|set_solver]. Qed.

Lemma fetchAndParseRSS_spec source w :
  fetchAndParseRSS source w = (Ok (sourceArticles w source), logged (EvFetch source) w).
Proof.
  unfold fetchAndParseRSS, tryCatch, ret, sourceArticles.
  by destruct (network w source).
Qed.

Lemma sourceArticles_addLog evs w source :
  sourceArticles (addLog evs w) source = sourceArticles w source.
Proof. done. Qed.

Lemma fetchAll_spec sources w :
  fetchAll sources w =
  (Ok (concat (sourceArticles w <$> sources)),
   addLog (reverse (EvFetch <$> sources)) w).
Proof.
  revert w. induction sources as [|s rest IH]; intros w.
  - cbn. unfold ret. by rewrite addLog_nil.
  - cbn [fetchAll]. unfold bind at 1. rewrite fetchAndParseRSS_spec.
    unfold bind at 1. rewrite IH. unfold ret. rewrite logged_addLog, addLog_addLog.
    rewrite !fmap_cons, reverse_cons. cbn [concat]. done.
Qed.

Lemma fetchArticlesFromSources_spec sources w :
  fetchArticlesFromSources sources w =
  (Ok (Array_sort byDateDesc
         (removeDuplicates (concat (sourceArticles w <$> sources)))),
   addLog (reverse (EvFetch <$> sources)) w).
Proof. unfold fetchArticlesFromSources, bind. by rewrite fetchAll_spec. Qed.

Lemma sublist_elem (l1 l2 : list Article.t) a :
  sublist l1 l2 -> a ∈ l1 -> a ∈ l2.
Proof.
  intros S Ha. apply sublist_submseteq in S.
  eapply elem_of_submseteq; [exact Ha|exact S].
Qed.

Lemma removeDuplicates_elem_of a l : a ∈ removeDuplicates l -> a ∈ l.
Proof.
  apply sublist_elem. rewrite removeDuplicates_keepNew. apply keepNew_sublist.
Qed.

(** Every key of the input is kept. *)
Lemma removeDuplicates_covers a l :
  a ∈ l -> exists b, b ∈ removeDuplicates l /\ dedupKey b = dedupKey a.
Proof.
  intros Ha. rewrite removeDuplicates_keepNew.
  pose proof (withKey_keepNew (dedupKey a) ∅ l) as H.
  rewrite decide_False in H by set_solver.
  assert (a ∈ withKey (dedupKey a) l) as Hw by (by apply list_elem_of_filter).
  destruct (withKey (dedupKey a) l) as [|b r] eqn:E; [by apply elem_of_nil in Hw|].
  cbn in H. exists b.
  assert (b ∈ withKey (dedupKey a) (keepNew ∅ l)) as [Hk Hb]%list_elem_of_filter
    by (rewrite H; left).
  done.
Qed.

Lemma elem_of_concat {A} (x : A) (ls : list (list A)) :
  x ∈ concat ls <-> exists chunk, x ∈ chunk /\ chunk ∈ ls.
Proof.
  induction ls as [|chunk ls IH]; cbn [concat].
  - split; [by intros ?%elem_of_nil|]. by intros (? & _ & ?%elem_of_nil).
  - rewrite elem_of_app, IH. split.
    + intros [H|(chunk' & H1 & H2)]; [exists chunk; split; [done|left]|].
      exists chunk'. split; [done|by right].
    + intros (chunk' & H1 & [->|H2]%elem_of_cons); [by left|right; eauto].
Qed.

Lemma sourceArticles_length w source : (length (sourceArticles w source) <= 20)%nat.
Proof.
  unfold sourceArticles. destruct (network w source) as [items|]; [|cbn; lia].
  etrans; [apply length_filter|]. rewrite length_take. lia.
Qed.

Lemma concat_sourceArticles_length w sources :
  (length (concat (sourceArticles w <$> sources)) <= 20 * length sources)%nat.
Proof.
  induction sources as [|s rest IH]; [cbn; lia|].
  rewrite fmap_cons. cbn [concat length]. rewrite length_app.
  pose proof (sourceArticles_length w s). lia.
Qed.

End AggregatorFacts.

(** X4.  [removeDuplicates] applied to its own result changes nothing, its
    result is never longer than its input, and a list in which no two
    articles share a key is returned as it is. *)
Theorem X4_removeDuplicates_idempotent (articles : list Article.t) :
  removeDuplicates (removeDuplicates articles) = removeDuplicates articles
  /\ (length (removeDuplicates articles) <= length articles)%nat
  /\ (NoDup (dedupKey <$> articles) -> removeDuplicates articles = articles).
Proof.
  split; [|split].
  - apply removeDuplicates_id. rewrite removeDuplicates_keepNew. apply keepNew_NoDup.
  - apply sublist_length. rewrite removeDuplicates_keepNew. apply keepNew_sublist.
  - apply removeDuplicates_id.
Qed.

Lemma X4_removeDuplicates_idempotent_witness :
  let l := [Sample.numbered "2024-01-05T10:00:00.000Z" None 1;
            Sample.numbered "2024-01-05T10:00:00.000Z" None 2] in
  NoDup (dedupKey <$> l) /\ removeDuplicates l = l.
Proof.
  cbv zeta.
  assert (N : NoDup (dedupKey <$>
                [Sample.numbered "2024-01-05T10:00:00.000Z" None 1;
                 Sample.numbered "2024-01-05T10:00:00.000Z" None 2])).
  { vm_compute. repeat constructor; rewrite ?list_elem_of_In; simpl; intuition discriminate. }
  split; [exact N|]. by apply (proj2 (proj2 (X4_removeDuplicates_idempotent _))).
Defined.

(** X5.  The aggregation never fails, whichever sources do: it asks every
    source once, in order, and returns a list.  Every article returned is one
    of the first 20 items of a source that answered and has a title and a
    link; and every such item is returned, or an article with the same key
    (normalized title and link) is.  A source that fails contributes
    nothing. *)
Theorem X5_aggregation_isolates_failures (sources : list NewsSource.t) (w : World) :
  exists result,
    fetchArticlesFromSources sources w
    = (Ok result, addLog (reverse (EvFetch <$> sources)) w)
    /\ (forall a, a ∈ result ->
          exists s items, s ∈ sources /\ network w s = Some items
            /\ a ∈ take 20 items
            /\ Article.title a <> EmptyString /\ Article.link a <> EmptyString)
    /\ (forall s items a,
          s ∈ sources -> network w s = Some items -> a ∈ take 20 items ->
          Article.title a <> EmptyString -> Article.link a <> EmptyString ->
          exists b, b ∈ result /\ dedupKey b = dedupKey a).
Proof.
  rewrite fetchArticlesFromSources_spec. eexists. split; [reflexivity|]. split.
  - intros a Ha%Array_sort_elem_of%removeDuplicates_elem_of.
    apply elem_of_concat in Ha as (l & Hal & (s & -> & Hs)%list_elem_of_fmap).
    unfold sourceArticles in Hal. destruct (network w s) as [items|] eqn:E;
      [|by apply elem_of_nil in Hal].
    apply list_elem_of_filter in Hal as [Hv Hin].
    apply Is_true_true, andb_true_iff in Hv as [Ht Hl].
    exists s, items. repeat split; try done.
    + by destruct (Article.title a).
    + by destruct (Article.link a).
  - intros s items a Hs E Hin Ht Hl.
    destruct (removeDuplicates_covers a (concat (sourceArticles w <$> sources)))
      as (b & Hb & Hk).
    + apply elem_of_concat. exists (sourceArticles w s).
      split; [|apply list_elem_of_fmap; eauto].
      unfold sourceArticles. rewrite E. apply list_elem_of_filter. split; [|done].
      apply Is_true_true, andb_true_iff.
      split; [by destruct (Article.title a)|by destruct (Article.link a)].
    + exists b. split; [by apply Array_sort_elem_of|done].
Qed.

(** A network on which the first source fails and the second answers. *)
Definition halfNetwork : World :=
  mkWorld ∅ 1704448800000 (fun _ => false)
    (fun s => if String.eqb (NewsSource.name s) "Reuters"
              then Some [Sample.numbered "2024-01-05T10:00:00.000Z" None 1]
              else None)
    false [].

Lemma X5_aggregation_isolates_failures_witness :
  let bbc := NewsSource.mk "BBC News" "https://feeds.bbci.co.uk/news/rss.xml"
               "general" "bg-red-600" in
  let reuters := NewsSource.mk "Reuters" "https://www.reutersagency.com/feed/"
               "general" "bg-orange-500" in
  network halfNetwork bbc = None
  /\ exists b, b ∈ default [] (match fst (fetchArticlesFromSources [bbc; reuters]
                                            halfNetwork)
                               with Ok l => Some l | Throw _ => None end)
        /\ dedupKey b = dedupKey (Sample.numbered "2024-01-05T10:00:00.000Z" None 1).
Proof.
  cbv zeta. split; [reflexivity|].
  destruct (X5_aggregation_isolates_failures
              [NewsSource.mk "BBC News" "https://feeds.bbci.co.uk/news/rss.xml"
                 "general" "bg-red-600";
               NewsSource.mk "Reuters" "https://www.reutersagency.com/feed/"
                 "general" "bg-orange-500"] halfNetwork)
    as (result & E & _ & H).
  rewrite E. cbn [fst default].
  apply (H (NewsSource.mk "Reuters" "https://www.reutersagency.com/feed/"
              "general" "bg-orange-500")
           [Sample.numbered "2024-01-05T10:00:00.000Z" None 1]).
  - right. left.
  - reflexivity.
  - left.
  - discriminate.
  - discriminate.
Defined.



(* ===================================================================== *)
(** * Further properties: src/cache/fileCache.ts *)
(* ===================================================================== *)

(** [await fs.unlink(path)]: the file must be there, and the disk willing. *)
Definition fs_unlink (path : string) : M unit :=
  fun w => match files w !! path with
           | Some _ =>
               if diskFails w path then (Throw EIO, logged (EvUnlink path) w)
               else (Ok tt, logged (EvUnlink path)
                              (withFiles (delete path (files w)) w))
           | None => (Throw ENOENT, logged (EvUnlink path) w)
           end.

(** The [for ... of] loop of [clearCache]; each turn has its own [try]. *)
Fixpoint clearCache_loop (filenames : list string) : M unit :=
  match filenames with
  | [] => ret tt
  | file :: rest =>
      tryCatch (fs_unlink (getCacheFilePath file)) (fun _ => ret tt);;
      clearCache_loop rest
  end.

Definition clearCache : M unit :=
  tryCatch (clearCache_loop ["articles.json"; "feeds.json"])
    (fun error => throw error).

Definition getCachedFeedData : M (option Snapshot.t) :=
  tryCatch (readCacheFile "feeds.json") (fun _ => ret None).

(** The snapshot [writeCacheFile] stores for [data] at time [now]. *)
Definition stamped (now : Z) (data : Snapshot.t) : Snapshot.t :=
  Snapshot.mk (Some CACHE_VERSION) (Some now)
    (Snapshot.articles data) (Snapshot.feeds data).

Section CacheStoreFacts.

Implicit Types (w : World) (filename : string) (data : Snapshot.t).

Lemma writeCacheFile_spec filename data w :
  writeCacheFile filename data w =
  if diskFails w CACHE_DIR then (Throw EIO, addLog [EvMkdir CACHE_DIR] w)
  else if diskFails w (getCacheFilePath filename)
       then (Throw EIO,
             addLog [EvWriteFile (getCacheFilePath filename); EvMkdir CACHE_DIR] w)
       else (Ok tt,
             addLog [EvWriteFile (getCacheFilePath filename); EvMkdir CACHE_DIR]
               (withFiles (<[getCacheFilePath filename :=
                               mkFile (clock w) (Some (stamped (clock w) data))]>
                             (files w)) w)).
Proof.
  unfold writeCacheFile, ensureCacheDir, fs_mkdir, fs_writeFile. unfoldM.
  cbn [clock logged diskFails].
  destruct (diskFails w CACHE_DIR); [done|]. cbn [clock logged diskFails].
  destruct (diskFails w (getCacheFilePath filename)); done.
Qed.

Lemma getCacheFilePath_inj f1 f2 :
  getCacheFilePath f1 = getCacheFilePath f2 -> f1 = f2.
Proof.
  unfold getCacheFilePath. intros E%append_inj_r. by apply (append_inj_r "/") in E.
Qed.

Lemma readSnapshot_insert filename now data fs w :
  files w = <[getCacheFilePath filename := mkFile now (Some (stamped now data))]> fs ->
  readSnapshot filename w =
  if clock w - now <? CACHE_EXPIRY_MS then Some (stamped now data) else None.
Proof.
  intros E. unfold readSnapshot. rewrite E, lookup_insert_eq. cbn [mtime parsed].
  destruct (_ <? _); [|done]. by rewrite bool_decide_eq_true_2.
Qed.

Lemma readSnapshot_insert_ne filename filename' f fs w :
  filename <> filename' ->
  files w = <[getCacheFilePath filename := f]> fs ->
  readSnapshot filename' w =
  match fs !! getCacheFilePath filename' with
  | Some f' =>
      if clock w - mtime f' <? CACHE_EXPIRY_MS then
        match parsed f' with
        | Some d => if bool_decide (Snapshot.version d = Some CACHE_VERSION)
                    then Some d else None
        | None => None
        end
      else None
  | None => None
  end.
Proof.
  intros Hne E. unfold readSnapshot. rewrite E.
  rewrite lookup_insert_ne; [done|]. intros H. by apply getCacheFilePath_inj in H.
Qed.

End CacheStoreFacts.

(** X7.  What is written can be read until it expires: when
    [writeCacheFile(filename, data)] returns, at time [t], a read of
    [filename] at a later time [now] (whatever disk and network have become)
    returns [data] stamped with the current version and [t] as long as
    [now - t] is less than 30 minutes, and [null] from then on; the stamp
    replaces whatever version and [lastUpdated] the data carried. *)
Theorem X7_write_then_read (filename : string) (data : Snapshot.t) (w w1 : World)
    (now : Z) (disk : string -> bool)
    (net : NewsSource.t -> option (list Article.t)) :
  writeCacheFile filename data w = (Ok tt, w1) ->
  fst (readCacheFile filename (withEnv now disk net w1))
  = Ok (if now - clock w <? CACHE_EXPIRY_MS
        then Some (Snapshot.mk (Some CACHE_VERSION) (Some (clock w))
                     (Snapshot.articles data) (Snapshot.feeds data))
        else None).
Proof.
  rewrite writeCacheFile_spec.
  destruct (diskFails w CACHE_DIR); [done|].
  destruct (diskFails w (getCacheFilePath filename)); [done|].
  intros [= <-]. rewrite readCacheFile_spec. cbn [fst]. f_equal.
  by erewrite readSnapshot_insert.
Qed.

Lemma X7_write_then_read_witness :
  let data := Snapshot.mk None None
                (Some [Sample.numbered "2024-01-05T10:00:00.000Z" None 1]) None in
  let w := Sample.world 1704448800000 in
  exists w1,
    writeCacheFile "articles.json" data w = (Ok tt, w1)
    /\ fst (readCacheFile "articles.json"
              (withEnv 1704450000000 (fun _ => false) (fun _ => None) w1))
       = Ok (Some (stamped 1704448800000 data))
    /\ fst (readCacheFile "articles.json"
              (withEnv 1704450600000 (fun _ => false) (fun _ => None) w1))
       = Ok None.
Proof.
  cbv zeta.
  set (data := Snapshot.mk None None
                 (Some [Sample.numbered "2024-01-05T10:00:00.000Z" None 1]) None).
  assert (E : writeCacheFile "articles.json" data (Sample.world 1704448800000)
              = (Ok tt, snd (writeCacheFile "articles.json" data
                               (Sample.world 1704448800000))))
    by (by rewrite writeCacheFile_spec).
  eexists. split; [exact E|].
  split; rewrite (X7_write_then_read _ _ _ _ _ _ _ E); reflexivity.
Defined.



Section ClearCacheFacts.

Implicit Types (w : World) (path : string).

(** One turn of the loop: the file goes if the disk lets it; no error
    leaves the turn. *)
Lemma unlink_turn path w :
  tryCatch (fs_unlink path) (fun _ => ret tt) w =
  (Ok tt,
   logged (EvUnlink path)
     (withFiles (if diskFails w path then files w else delete path (files w)) w)).
Proof.
  unfold tryCatch, fs_unlink, ret.
  destruct (files w !! path) as [f|] eqn:E.
  - destruct (diskFails w path); [|done]. by destruct w.
  - destruct (diskFails w path); [by destruct w|].
    rewrite delete_id by done. by destruct w.
Qed.

Lemma clearCache_spec w :
  clearCache w =
  (Ok tt,
   let fs1 := if diskFails w articlesPath then files w
              else delete articlesPath (files w) in
   let fs2 := if diskFails w (getCacheFilePath "feeds.json") then fs1
              else delete (getCacheFilePath "feeds.json") fs1 in
   addLog [EvUnlink (getCacheFilePath "feeds.json"); EvUnlink articlesPath]
     (withFiles fs2 w)).
Proof.
  unfold clearCache. unfold tryCatch at 1. cbn [clearCache_loop].
  unfold bind at 1. rewrite unlink_turn. unfold bind at 1. rewrite unlink_turn.
  done.
Qed.

End ClearCacheFacts.

(** X9.  [clearCache] never throws, with or without the files and even when
    the disk refuses to delete.  Where the disk is willing, both snapshot
    files are gone afterwards, so that the cached list is empty and the
    statistics report an expired cache; a file the disk refuses to delete
    stays, without an error; every other file is left as it was. *)
Theorem X9_clearCache (w : World) :
  exists w',
    clearCache w = (Ok tt, w')
    /\ (forall filename,
          filename = "articles.json" \/ filename = "feeds.json" ->
          files w' !! getCacheFilePath filename
          = if diskFails w (getCacheFilePath filename)
            then files w !! getCacheFilePath filename else None)
    /\ (forall path,
          path <> getCacheFilePath "articles.json" ->
          path <> getCacheFilePath "feeds.json" ->
          files w' !! path = files w !! path)
    /\ (diskFails w (getCacheFilePath "articles.json") = false ->
        cachedArticles w' = [] /\ statsOf w' = mkStats 0 None true).
Proof.
  rewrite clearCache_spec. eexists. split; [reflexivity|]. cbv zeta.
  cbn [files addLog withFiles]. fold articlesPath.
  assert (Hne : articlesPath <> getCacheFilePath "feeds.json") by discriminate.
  split; [|split].
  - intros filename [->| ->]; fold articlesPath.
    + destruct (diskFails w articlesPath), (diskFails w (getCacheFilePath "feeds.json"));
        rewrite ?lookup_delete_ne, ?lookup_delete_eq by done; done.
    + destruct (diskFails w articlesPath), (diskFails w (getCacheFilePath "feeds.json"));
        rewrite ?lookup_delete_eq, ?lookup_delete_ne by done; done.
  - intros path H1 H2.
    destruct (diskFails w articlesPath), (diskFails w (getCacheFilePath "feeds.json"));
      rewrite ?lookup_delete_ne by done; done.
  - intros ->. unfold cachedArticles, statsOf, readSnapshot, fresh.
    cbn [files addLog withFiles clock]. fold articlesPath.
    destruct (diskFails w (getCacheFilePath "feeds.json"));
      rewrite ?lookup_delete_ne, ?lookup_delete_eq by done; done.
Qed.

Lemma X9_clearCache_witness :
  let w := Sample.worldWith 1704448800000 1704448800000
             [Sample.numbered "2024-01-05T10:00:00.000Z" None 1] in
  cachedArticles w <> [] /\ cachedArticles (snd (clearCache w)) = [].
Proof.
  cbv zeta. split; [discriminate|].
  destruct (X9_clearCache (Sample.worldWith 1704448800000 1704448800000
                             [Sample.numbered "2024-01-05T10:00:00.000Z" None 1]))
    as (w' & E & _ & _ & H).
  rewrite E. by apply H.
Defined.

(** A query: it returns [value w] without throwing, and its only I/O is
    reading. *)
Definition readOnlyQuery {A} (m : M A) (value : World -> A) : Prop :=
  forall w, exists w', m w = (Ok (value w), w') /\ onlyRead w w'.

Section QueryFacts.

Implicit Types (w : World).

Lemma getCachedArticlesByCategory_spec category w :
  getCachedArticlesByCategory category w =
  (Ok (filter (fun a => Article.category a = category) (cachedArticles w)),
   addLog (readEvents "articles.json" w) w).
Proof.
  unfold getCachedArticlesByCategory. unfold tryCatch at 1. unfold bind at 1.
  by rewrite getCachedArticles_spec.
Qed.

Lemma getCachedArticleBySlug_spec slug w :
  getCachedArticleBySlug slug w =
  (Ok (head (filter (fun a => Article.slug a = slug) (cachedArticles w))),
   addLog (readEvents "articles.json" w) w).
Proof.
  unfold getCachedArticleBySlug. unfold tryCatch at 1. unfold bind at 1.
  by rewrite getCachedArticles_spec.
Qed.

Lemma searchCachedArticles_spec query w :
  searchCachedArticles query w =
  (Ok (filter (fun a => Is_true (matchesQuery (JS.toLowerCase query) a))
         (cachedArticles w)),
   addLog (readEvents "articles.json" w) w).
Proof.
  unfold searchCachedArticles. unfold tryCatch at 1. unfold bind at 1.
  by rewrite getCachedArticles_spec.
Qed.

Lemma getCachedFeedData_spec w :
  getCachedFeedData w =
  (Ok (readSnapshot "feeds.json" w), addLog (readEvents "feeds.json" w) w).
Proof. unfold getCachedFeedData, tryCatch. by rewrite readCacheFile_spec. Qed.

Lemma onlyRead_stats w :
  onlyRead w (addLog (EvStat articlesPath :: readEvents "articles.json" w) w).
Proof.
  split; [done|]. eexists. split; [done|].
  constructor; [done|apply readEvents_no_write].
Qed.

End QueryFacts.

(** X10.  The queries of the cache never throw and never write: whatever the
    state of the disk, [getCachedArticles], [getCachedArticlesByCategory],
    [getCachedArticleBySlug], [searchCachedArticles], [getCachedFeedData] and
    [getCacheStats] return a value, change no file and perform no I/O but
    reading; the three filters are filters of the cached list, which is empty
    when the snapshot is missing, expired, unparseable or of another
    version. *)
Theorem X10_queries_read_only (category slug query : string) :
  readOnlyQuery getCachedArticles cachedArticles
  /\ readOnlyQuery (getCachedArticlesByCategory category)
       (fun w => filter (fun a => Article.category a = category) (cachedArticles w))
  /\ readOnlyQuery (getCachedArticleBySlug slug)
       (fun w => head (filter (fun a => Article.slug a = slug) (cachedArticles w)))
  /\ readOnlyQuery (searchCachedArticles query)
       (fun w => filter (fun a => Is_true (matchesQuery (JS.toLowerCase query) a))
                   (cachedArticles w))
  /\ readOnlyQuery getCachedFeedData (readSnapshot "feeds.json")
  /\ readOnlyQuery getCacheStats statsOf
  /\ (forall w, fst (readCacheFile "articles.json" w) = Ok None ->
                cachedArticles w = []).
Proof.
  repeat split.
  - intros w. rewrite getCachedArticles_spec. eexists. split; [done|].
    apply onlyRead_addLog_read.
  - intros w. rewrite getCachedArticlesByCategory_spec. eexists. split; [done|].
    apply onlyRead_addLog_read.
  - intros w. rewrite getCachedArticleBySlug_spec. eexists. split; [done|].
    apply onlyRead_addLog_read.
  - intros w. rewrite searchCachedArticles_spec. eexists. split; [done|].
    apply onlyRead_addLog_read.
  - intros w. rewrite getCachedFeedData_spec. eexists. split; [done|].
    apply onlyRead_addLog_read.
  - intros w. rewrite getCacheStats_spec. eexists. split; [done|].
    apply onlyRead_stats.
  - intros w. rewrite readCacheFile_spec. cbn [fst]. intros [= E].
    unfold cachedArticles. by rewrite E.
Qed.

Lemma X10_queries_read_only_witness :
  let w := Sample.world 1704448800000 in
  fst (readCacheFile "articles.json" w) = Ok None /\ cachedArticles w = [].
Proof.
  cbv zeta.
  assert (H : fst (readCacheFile "articles.json" (Sample.world 1704448800000))
              = Ok None) by reflexivity.
  split; [exact H|].
  by apply (proj2 (proj2 (proj2 (proj2 (proj2 (proj2
              (X10_queries_read_only "" "" ""))))))).
Defined.

(** X11.  [addArticles] throws exactly when it has something new to store
    and the disk refuses the directory or the file; the error is the disk's,
    and no file has changed.  In particular a merge that throws has not
    touched the cache. *)
Theorem X11_addArticles_failure (new : list Article.t) (w : World) :
  let failing :=
    uniqueNewArticles (cachedArticles w) new <> []
    /\ (diskFails w CACHE_DIR = true \/ diskFails w articlesPath = true) in
  (failing ->
   exists w1, addArticles new w = (Throw EIO, w1)
              /\ files w1 = files w /\ cachedArticles w1 = cachedArticles w)
  /\ (forall e w1, addArticles new w = (Throw e, w1) -> failing).
Proof.
  cbv zeta. rewrite addArticles_spec. cbv zeta.
  destruct (uniqueNewArticles (cachedArticles w) new) as [|a u] eqn:E.
  - split; [by intros [? _]|]. by intros e w1 [=].
  - rewrite cacheArticles_spec. cbn [diskFails addLog].
    destruct (diskFails w CACHE_DIR) eqn:D1.
    { split; [intros _; by eexists|]. intros e w1 _. split; [done|by left]. }
    destruct (diskFails w articlesPath) eqn:D2.
    { split; [intros _; by eexists|]. intros e w1 _. split; [done|by right]. }
    split; [by intros [_ [?|?]]|]. by intros e w1 [=].
Qed.

Lemma X11_addArticles_failure_witness :
  let new := [Sample.numbered "2024-01-05T10:00:00.000Z" None 1] in
  exists w1, addArticles new brokenDisk = (Throw EIO, w1)
             /\ files w1 = files brokenDisk.
Proof.
  cbv zeta.
  destruct (proj1 (X11_addArticles_failure
                     [Sample.numbered "2024-01-05T10:00:00.000Z" None 1] brokenDisk))
    as (w1 & E & F & _).
  - split; [|by left]. rewrite uniqueNewArticles_empty_cache. discriminate.
  - by exists w1.
Defined.

(** X12.  When [addArticles] stores a merged list and all publication dates
    are valid, that list is in descending order of publication time, every
    article of it comes from the input or from the cache, and, when the new
    and the cached articles are at most 1000 together, it holds all of them;
    the cache file then holds the list with the time of the write as its
    modification time. *)
Theorem X12_addArticles_merged (new l1 : list Article.t) (w w1 : World) :
  addArticles new w = (Ok l1, w1) ->
  uniqueNewArticles (cachedArticles w) new <> [] ->
  (forall a, a ∈ l1 -> a ∈ new \/ a ∈ cachedArticles w)
  /\ files w1 = <[articlesPath := articlesFile (clock w) l1]> (files w)
  /\ ((length (uniqueNewArticles (cachedArticles w) new ++ cachedArticles w)
       <= MAX_ARTICLES)%nat ->
      l1 ≡ₚ uniqueNewArticles (cachedArticles w) new ++ cachedArticles w)
  /\ (Forall validDate new -> Forall validDate (cachedArticles w) ->
      StronglySorted (fun a b => timeOf b <= timeOf a) l1).
Proof.
  rewrite addArticles_spec. cbv zeta. intros H Hne.
  destruct (uniqueNewArticles (cachedArticles w) new) as [|a0 u] eqn:E; [done|].
  rewrite <- E in *. rewrite cacheArticles_spec in H. cbn [diskFails addLog] in H.
  destruct (diskFails w CACHE_DIR); [done|].
  destruct (diskFails w articlesPath); [done|].
  injection H as <- <-. split; [|split; [done|split]].
  - intros a Ha. unfold mergedArticles in Ha.
    apply (subseteq_take MAX_ARTICLES) in Ha.
    apply Array_sort_elem_of, elem_of_app in Ha as [Ha|Ha]; [left|by right].
    by apply uniqueNewArticles_fresh in Ha as [Ha _].
  - apply mergedArticles_untruncated.
  - intros Hn He.
    destruct (mergedArticles_sublist (cachedArticles w) new) as [dropped Hd].
    assert (S : StronglySorted (keyGe timeOf)
                  (mergedArticles (cachedArticles w) new ++ dropped)).
    { rewrite Hd. apply (Array_sort_sorted byDateDesc timeOf validDate byDateDesc_key).
      apply Forall_app. split; [|done].
      apply Forall_forall. intros a [Ha _]%uniqueNewArticles_fresh.
      rewrite Forall_forall in Hn. by apply Hn. }
    by apply StronglySorted_app_1_l in S.
Qed.

Lemma X12_addArticles_merged_witness :
  let new := [Sample.numbered "2024-01-05T10:00:00.000Z" None 1] in
  let w := Sample.worldWith 1704448800000 1704448800000
             [Sample.numbered "2024-01-06T09:00:00.000Z" None 7] in
  exists l1 w1,
    addArticles new w = (Ok l1, w1)
    /\ StronglySorted (fun a b => timeOf b <= timeOf a) l1.
Proof.
  cbv zeta.
  set (new := [Sample.numbered "2024-01-05T10:00:00.000Z" None 1]).
  set (w := Sample.worldWith 1704448800000 1704448800000
              [Sample.numbered "2024-01-06T09:00:00.000Z" None 7]).
  assert (E : addArticles new w
              = (Ok (mergedArticles (cachedArticles w) new), snd (addArticles new w)))
    by (vm_compute; reflexivity).
  eexists _, _. split; [exact E|].
  apply (X12_addArticles_merged _ _ _ _ E).
  - vm_compute. discriminate.
  - repeat constructor. vm_compute. by eexists.
  - repeat constructor. vm_compute. by eexists.
Defined.

(* ===================================================================== *)
(** * Further properties: the refresh of src/services/NewsService.ts *)
(* ===================================================================== *)

(** What [fetchArticlesFromSources(newsSources)] returns in [w]. *)
Definition aggregated (w : World) : list Article.t :=
  Array_sort byDateDesc
    (removeDuplicates (concat (sourceArticles w <$> newsSources))).

(** The I/O of the validity check of [refreshArticles], latest first. *)
Definition refreshProbe (force : bool) (w : World) : list Event :=
  if force then [] else EvStat articlesPath :: readEvents "articles.json" w.

(** The refresh takes the cached list without asking the network. *)
Definition servedFromCache (force : bool) (w : World) : bool :=
  negb force && negb (bool_decide (cachedArticles w = [])).

(** The log has grown by events that [P] rejects. *)
Definition quiet (P : Event -> bool) (w w' : World) : Prop :=
  exists evs, log w' = evs ++ log w /\ Forall (fun e => P e = false) evs.

Section RefreshPaths.

Implicit Types (w : World) (force : bool) (l : list Article.t).

Lemma quiet_refl P w : quiet P w w.
Proof. by exists []. Qed.

Lemma quiet_addLog P evs w w' :
  Forall (fun e => P e = false) evs -> quiet P w w' -> quiet P w (addLog evs w').
Proof.
  intros H (evs' & E & H'). exists (evs ++ evs'). split.
  - cbn [log addLog]. by rewrite E, app_assoc.
  - by apply Forall_app.
Qed.

Lemma readEvents_no_fetch filename w :
  Forall (fun e => isFetch e = false) (readEvents filename w).
Proof. unfold readEvents. destruct (fresh _ _); repeat constructor. Qed.

Lemma readSnapshot_Some_fresh filename w d :
  readSnapshot filename w = Some d -> fresh (getCacheFilePath filename) w = true.
Proof.
  unfold readSnapshot, fresh. destruct (files w !! _) as [f|]; [|done].
  by destruct (_ <? _).
Qed.

Lemma stillValid_spec w :
  negb (isExpired (statsOf w)) && (0 <? articlesCount (statsOf w))%nat
  = negb (bool_decide (cachedArticles w = [])).
Proof.
  unfold statsOf, cachedArticles, articlesOrEmpty.
  destruct (readSnapshot "articles.json" w) as [d|] eqn:E.
  - apply readSnapshot_Some_fresh in E. fold articlesPath in E.
    destruct (Snapshot.articles d) as [[|a l]|]; cbn; by rewrite ?E.
  - cbn. by rewrite andb_false_r.
Qed.

Lemma cachedArticles_lookup w w' :
  files w' !! articlesPath = files w !! articlesPath -> clock w' = clock w ->
  cachedArticles w' = cachedArticles w.
Proof.
  intros F C. unfold cachedArticles, readSnapshot. fold articlesPath.
  by rewrite F, C.
Qed.

Lemma refreshBody_spec force w :
  refreshBody force w =
  let w0 := addLog (refreshProbe force w) (withFlag true w) in
  if servedFromCache force w
  then (Ok (cachedArticles w), addLog (readEvents "articles.json" w) w0)
  else afterFetch (aggregated w) (addLog (reverse (EvFetch <$> newsSources)) w0).
Proof.
  unfold refreshBody. unfold bind at 1. unfold setRefreshing. unfold bind at 1.
  fold afterFetch. unfold servedFromCache, refreshProbe. cbv zeta.
  destruct force; cbn [negb andb].
  - unfold ret. unfold bind. rewrite fetchArticlesFromSources_spec.
    by rewrite addLog_nil.
  - unfold bind at 1. rewrite getCacheStats_spec. unfold ret.
    change (statsOf (withFlag true w)) with (statsOf w).
    rewrite stillValid_spec.
    destruct (bool_decide (cachedArticles w = [])); cbn [negb].
    + unfold bind. by rewrite fetchArticlesFromSources_spec.
    + by rewrite getCachedArticles_spec.
Qed.

Definition feedsPath : string := getCacheFilePath "feeds.json".

Lemma feedsPath_ne : articlesPath <> feedsPath.
Proof. intros E. by apply getCacheFilePath_inj in E. Qed.

(** The paths of the block after the fetch. *)
Lemma afterFetch_cases fetched w :
  let existing := cachedArticles w in
  let stored :=
    match uniqueNewArticles existing fetched with
    | [] => existing
    | _ :: _ => mergedArticles existing fetched
    end in
  exists r w',
    afterFetch fetched w = (r, w')
    /\ clock w' = clock w /\ isRefreshing w' = isRefreshing w
    /\ quiet isFetch w w'
    /\ match r with
       | Ok l =>
           cachedArticles w' = l
           /\ (fetched = [] -> l = existing /\ files w' = files w)
           /\ (fetched <> [] ->
               l = stored
               /\ readSnapshot "feeds.json" w'
                  = Some (Snapshot.mk (Some CACHE_VERSION) (Some (clock w))
                            (Some l) (Some newsSources)))
       | Throw e =>
           e = EIO /\ fetched <> []
           /\ (diskFails w CACHE_DIR = true \/ diskFails w articlesPath = true
               \/ diskFails w feedsPath = true)
       end.
Proof.
  cbv zeta. unfold afterFetch.
  assert (Q0 : quiet isFetch w (addLog (readEvents "articles.json" w) w))
    by (apply quiet_addLog; [apply readEvents_no_fetch|apply quiet_refl]).
  destruct (decide (fetched = [])) as [->|Hne].
  { cbn [length Nat.eqb]. rewrite getCachedArticles_spec. eexists _, _.
    split; [done|]. repeat split; done. }
  replace (length fetched =? 0)%nat with false by (by destruct fetched).
  unfold bind at 1. rewrite addArticles_spec. cbv zeta.
  set (w0 := addLog (readEvents "articles.json" w) w) in *.
  destruct (uniqueNewArticles (cachedArticles w) fetched) as [|a u] eqn:E.
  - unfold bind at 1. unfold Date_now. unfold bind at 1. unfold cacheFeedData, tryCatch.
    rewrite writeCacheFile_spec. cbn [diskFails clock addLog w0]. fold feedsPath.
    destruct (diskFails w CACHE_DIR) eqn:D1.
    { eexists _, _. split; [done|]. split; [done|]. split; [done|]. split.
      - apply quiet_addLog; [by repeat constructor|done].
      - split; [done|]. split; [done|]. by left. }
    destruct (diskFails w feedsPath) eqn:D2.
    { eexists _, _. split; [done|]. split; [done|]. split; [done|]. split.
      - apply quiet_addLog; [by repeat constructor|done].
      - split; [done|]. split; [done|]. by right; right. }
    eexists _, _. split; [done|]. split; [done|]. split; [done|]. split.
    { apply (quiet_addLog isFetch _ w); [by repeat constructor|done]. }
    split; [|split; [done|]].
    + apply cachedArticles_lookup; [|done]. cbn [files addLog withFiles].
      rewrite lookup_insert_ne; [done|]. intros H. by apply feedsPath_ne.
    + intros _. split; [done|].
      erewrite readSnapshot_insert; [|cbn [files addLog withFiles]; reflexivity].
      cbn [clock addLog withFiles]. by rewrite Z.sub_diag.
  - rewrite cacheArticles_spec. cbn [diskFails addLog w0].
    destruct (diskFails w CACHE_DIR) eqn:D1.
    { eexists _, _. split; [done|]. split; [done|]. split; [done|]. split.
      - apply quiet_addLog; [by repeat constructor|done].
      - split; [done|]. split; [done|]. by left. }
    destruct (diskFails w articlesPath) eqn:D2.
    { eexists _, _. split; [done|]. split; [done|]. split; [done|]. split.
      - apply quiet_addLog; [by repeat constructor|done].
      - split; [done|]. split; [done|]. by right; left. }
    unfold bind at 1. unfold Date_now. unfold bind at 1. unfold cacheFeedData, tryCatch.
    rewrite writeCacheFile_spec. cbn [diskFails clock addLog withFiles w0]. rewrite D1.
    fold feedsPath.
    assert (Q1 : quiet isFetch w
              (addLog [EvWriteFile articlesPath; EvMkdir CACHE_DIR]
                 (withFiles (<[articlesPath := articlesFile (clock w)
                                 (mergedArticles (cachedArticles w) fetched)]>
                               (files w)) w0)))
      by (apply (quiet_addLog isFetch _ w); [by repeat constructor|done]).
    destruct (diskFails w feedsPath) eqn:D2'.
    { eexists _, _. split; [done|]. split; [done|]. split; [done|]. split.
      - apply quiet_addLog; [by repeat constructor|exact Q1].
      - split; [done|]. split; [done|]. by right; right. }
    eexists _, _. split; [done|]. split; [done|]. split; [done|]. split.
    { apply (quiet_addLog isFetch _ w); [by repeat constructor|exact Q1]. }
    split; [|split; [done|]].
    + eapply cachedArticles_written. cbn [files addLog withFiles clock].
      rewrite insert_insert_ne by (intros H; by apply feedsPath_ne). reflexivity.
    + intros _. split; [done|].
      erewrite readSnapshot_insert; [|cbn [files addLog withFiles]; reflexivity].
      cbn [clock addLog withFiles]. by rewrite Z.sub_diag.
Qed.

End RefreshPaths.

Section RefreshOutcome.

Implicit Types (w : World) (force : bool) (l : list Article.t).

(** The world in which the block after the fetch starts. *)
Definition fetchedWorld (force : bool) (w : World) : World :=
  addLog (reverse (EvFetch <$> newsSources))
    (addLog (refreshProbe force w) (withFlag true w)).

Lemma refreshArticles_served w :
  isRefreshing w = false -> cachedArticles w <> [] ->
  refreshArticles false w =
  (Ok (cachedArticles w),
   withFlag false
     (addLog (readEvents "articles.json" w ++ refreshProbe false w) w)).
Proof.
  intros G H. rewrite refreshArticles_unguarded by (by rewrite G).
  rewrite refreshBody_spec. cbv zeta. unfold servedFromCache.
  rewrite bool_decide_eq_false_2 by done. cbn [negb andb].
  by rewrite addLog_addLog.
Qed.

Lemma refreshArticles_fetching force w :
  isRefreshing w && negb force = false ->
  force = true \/ cachedArticles w = [] ->
  refreshArticles force w =
  match afterFetch (aggregated w) (fetchedWorld force w) with
  | (Ok l, w1) => (Ok l, withFlag false w1)
  | (Throw _, w1) =>
      (Ok (cachedArticles w1),
       withFlag false (addLog (readEvents "articles.json" w1) w1))
  end.
Proof.
  intros G H. rewrite refreshArticles_unguarded by done.
  rewrite refreshBody_spec. cbv zeta. unfold servedFromCache.
  replace (negb force && negb (bool_decide (cachedArticles w = []))) with false;
    [done|].
  destruct H as [->| ->]; [done|]. by rewrite andb_false_r.
Qed.

Lemma refreshProbe_no_fetch force w :
  Forall (fun e => isFetch e = false) (refreshProbe force w).
Proof.
  unfold refreshProbe. destruct force; [constructor|].
  constructor; [done|apply readEvents_no_fetch].
Qed.

Lemma filter_fetches (sources : list NewsSource.t) :
  filter (fun e => Is_true (isFetch e)) (reverse (EvFetch <$> sources))
  = reverse (EvFetch <$> sources).
Proof.
  induction sources as [|s r IH]; [done|].
  rewrite fmap_cons, reverse_cons, filter_app, IH. done.
Qed.

Lemma filter_no_fetch (evs : list Event) :
  Forall (fun e => isFetch e = false) evs ->
  filter (fun e => Is_true (isFetch e)) evs = [].
Proof.
  intros H. apply filter_nil_Forall. eapply Forall_impl; [exact H|].
  intros e E HI. rewrite E in HI. exact HI.
Qed.

Lemma aggregated_nil w :
  (forall s, s ∈ newsSources -> sourceArticles w s = []) -> aggregated w = [].
Proof.
  intros H. unfold aggregated.
  assert (E : concat (sourceArticles w <$> newsSources) = []).
  { induction newsSources as [|s r IH]; [done|].
    rewrite fmap_cons. cbn [concat]. rewrite H by left. cbn [app].
    apply IH. intros s' Hs. apply H. by right. }
  by rewrite E.
Qed.

Lemma readEvents_silent filename w :
  Forall (fun e => isFetch e = false /\ isWrite e = false) (readEvents filename w).
Proof. unfold readEvents. destruct (fresh _ _); repeat constructor. Qed.

End RefreshOutcome.

(** X13.  Whatever happens inside, the list [refreshArticles] returns is the
    list the cache holds when it returns: a read of the cache right after the
    call, at the same time, gives the same list. *)
Theorem X13_refresh_returns_cache (force : bool) (w : World) :
  exists l w',
    refreshArticles force w = (Ok l, w')
    /\ clock w' = clock w
    /\ cachedArticles w' = l
    /\ fst (getCachedArticles w') = Ok l.
Proof.
  assert (R : forall l w', cachedArticles w' = l -> fst (getCachedArticles w') = Ok l).
  { intros l w' <-. by rewrite getCachedArticles_spec. }
  destruct (isRefreshing w && negb force) eqn:G.
  - apply andb_true_iff in G as [G F]. destruct force; [done|].
    rewrite refreshArticles_guarded by done. eexists _, _. split; [done|].
    split; [done|]. split; [done|]. by apply R.
  - destruct (servedFromCache force w) eqn:S.
    + apply andb_true_iff in S as [F S]. destruct force; [done|].
      apply negb_true_iff, bool_decide_eq_false in S.
      cbn [negb] in G. rewrite andb_true_r in G.
      rewrite refreshArticles_served by done.
      eexists _, _. split; [done|]. split; [done|]. split; [done|]. by apply R.
    + rewrite refreshArticles_fetching; [|done|].
      * destruct (afterFetch_cases (aggregated w) (fetchedWorld force w))
          as (r & w1 & -> & C & _ & _ & H).
        destruct r as [l|e].
        -- destruct H as [H _]. eexists _, _. split; [done|].
           split; [exact C|]. split; [exact H|]. by apply R.
        -- eexists _, _. split; [done|]. split; [exact C|]. split; [done|].
           by apply R.
      * unfold servedFromCache in S. destruct force; [by left|right].
        cbn in S. by apply negb_false_iff, bool_decide_eq_true in S.
Qed.

(** X14.  When no refresh is in progress (or the refresh is forced), an
    unforced refresh of a cache that holds articles returns them without
    asking any source and without writing; a forced refresh, or one of a cache
    that reads as empty, asks every configured source exactly once, in
    order, whatever happens afterwards. *)
Theorem X14_refresh_network (force : bool) (w : World) :
  isRefreshing w && negb force = false ->
  exists l w' evs,
    refreshArticles force w = (Ok l, w')
    /\ log w' = evs ++ log w
    /\ (force = false -> cachedArticles w <> [] ->
        l = cachedArticles w /\ files w' = files w
        /\ Forall (fun e => isFetch e = false /\ isWrite e = false) evs)
    /\ (force = true \/ cachedArticles w = [] ->
        filter (fun e => Is_true (isFetch e)) evs
        = reverse (EvFetch <$> newsSources)).
Proof.
  intros G.
  destruct (decide (force = true \/ cachedArticles w = [])) as [H|H].
  - rewrite refreshArticles_fetching by done.
    destruct (afterFetch_cases (aggregated w) (fetchedWorld force w))
      as (r & w1 & -> & _ & _ & (evs & L & Q) & _).
    assert (F : filter (fun e => Is_true (isFetch e))
                  (evs ++ reverse (EvFetch <$> newsSources) ++ refreshProbe force w)
                = reverse (EvFetch <$> newsSources)).
    { rewrite !filter_app, filter_fetches, (filter_no_fetch evs) by done.
      rewrite (filter_no_fetch (refreshProbe force w))
        by apply refreshProbe_no_fetch.
      by rewrite app_nil_r. }
    destruct r as [l|e].
    + exists l, (withFlag false w1),
        (evs ++ reverse (EvFetch <$> newsSources) ++ refreshProbe force w).
      split; [done|]. split.
      { cbn [log withFlag]. rewrite L. cbn [fetchedWorld log addLog withFlag].
        by rewrite <- !app_assoc. }
      split; [|done]. intros -> Hne. by destruct H.
    + eexists _, _,
        (readEvents "articles.json" w1
         ++ evs ++ reverse (EvFetch <$> newsSources) ++ refreshProbe force w).
      split; [done|]. split.
      { cbn [log withFlag addLog]. rewrite L. cbn [fetchedWorld log addLog withFlag].
        by rewrite <- !app_assoc. }
      split; [intros -> Hne; by destruct H|]. intros _.
      rewrite filter_app, F, filter_no_fetch by apply readEvents_no_fetch. done.
  - assert (force = false) as -> by (destruct force; [by destruct H; left|done]).
    assert (Hne : cachedArticles w <> []) by (intros E; apply H; by right).
    rewrite andb_true_r in G.
    rewrite refreshArticles_served by done.
    eexists _, _, _. split; [done|]. split; [done|]. split; [|by intros ?].
    intros _ _. split; [done|]. split; [done|].
    unfold refreshProbe. apply Forall_app. split.
    + apply readEvents_silent.
    + constructor; [done|apply readEvents_silent].
Qed.

Lemma X14_refresh_network_witness :
  let w := Sample.world 1704448800000 in
  exists l w' evs,
    refreshArticles true w = (Ok l, w')
    /\ log w' = evs ++ log w
    /\ filter (fun e => Is_true (isFetch e)) evs = reverse (EvFetch <$> newsSources).
Proof.
  cbv zeta.
  destruct (X14_refresh_network true (Sample.world 1704448800000) eq_refl)
    as (l & w' & evs & E & L & _ & F).
  exists l, w', evs. split; [exact E|]. split; [exact L|]. apply F. by left.
Defined.

Section RefreshStores.

Implicit Types (w : World) (force : bool).

Lemma aggregated_nonempty w s a :
  s ∈ newsSources -> a ∈ sourceArticles w s -> aggregated w <> [].
Proof.
  intros Hs Ha E.
  destruct (removeDuplicates_covers a (concat (sourceArticles w <$> newsSources)))
    as (b & Hb & _).
  - apply elem_of_concat. exists (sourceArticles w s). split; [done|].
    apply list_elem_of_fmap. eauto.
  - apply (Array_sort_elem_of byDateDesc) in Hb. fold (aggregated w) in Hb.
    rewrite E in Hb. by apply elem_of_nil in Hb.
Qed.

End RefreshStores.

(** X15.  A refresh that goes to the network (it is forced, or the cache
    reads as empty), gets at least one article and finds the disk willing
    stores what it returns: the returned list is the cached list when every
    fetched id was cached already and the merged list otherwise; the article
    cache then holds it, and the feed cache holds the configured sources with
    that list, stamped with the time of the refresh. *)
Theorem X15_refresh_stores (force : bool) (w : World) :
  isRefreshing w && negb force = false ->
  force = true \/ cachedArticles w = [] ->
  aggregated w <> [] ->
  diskFails w CACHE_DIR = false ->
  diskFails w articlesPath = false ->
  diskFails w feedsPath = false ->
  let stored :=
    match uniqueNewArticles (cachedArticles w) (aggregated w) with
    | [] => cachedArticles w
    | _ :: _ => mergedArticles (cachedArticles w) (aggregated w)
    end in
  exists w',
    refreshArticles force w = (Ok stored, w')
    /\ isRefreshing w' = false
    /\ cachedArticles w' = stored
    /\ fst (getCachedFeedData w')
       = Ok (Some (Snapshot.mk (Some CACHE_VERSION) (Some (clock w))
                     (Some stored) (Some newsSources))).
Proof.
  intros G H Hne D1 D2 D3. cbv zeta.
  rewrite refreshArticles_fetching by done.
  destruct (afterFetch_cases (aggregated w) (fetchedWorld force w))
    as (r & w1 & -> & C & _ & _ & P).
  destruct r as [l|e].
  - change (cachedArticles (fetchedWorld force w)) with (cachedArticles w) in P.
    change (clock (fetchedWorld force w)) with (clock w) in P.
    destruct P as (Hc & _ & Hs). destruct (Hs Hne) as [El Hf].
    rewrite El in Hc, Hf |- *. clear El Hs.
    eexists. split; [reflexivity|]. split; [done|]. split; [exact Hc|].
    rewrite getCachedFeedData_spec. cbn [fst]. f_equal. exact Hf.
  - change (diskFails (fetchedWorld force w)) with (diskFails w) in P.
    destruct P as (_ & _ & [D|[D|D]]); congruence.
Qed.

Lemma X15_refresh_stores_witness :
  exists l w',
    refreshArticles true halfNetwork = (Ok l, w')
    /\ cachedArticles w' = l
    /\ fst (getCachedFeedData w')
       = Ok (Some (Snapshot.mk (Some CACHE_VERSION) (Some 1704448800000)
                     (Some l) (Some newsSources))).
Proof.
  assert (Hne : aggregated halfNetwork <> []).
  { apply (aggregated_nonempty halfNetwork
             (NewsSource.mk "Reuters"
                "https://www.reutersagency.com/feed/?best-topics=business-finance&post_type=best"
                "general" "bg-orange-500")
             (Sample.numbered "2024-01-05T10:00:00.000Z" None 1)).
    - right. left.
    - vm_compute. left. }
  destruct (X15_refresh_stores true halfNetwork eq_refl (or_introl eq_refl) Hne
              eq_refl eq_refl eq_refl) as (w' & E & _ & Hc & Hf).
  eexists _, w'. split; [exact E|]. split; [exact Hc|exact Hf].
Defined.

(** X16.  When no source contributes an article (each request fails, or
    delivers no item with a title and a link), [refreshArticles] changes no
    file and returns the cached list as it was, forced or not. *)
Theorem X16_refresh_nothing_fetched (force : bool) (w : World) :
  (forall s, s ∈ newsSources -> sourceArticles w s = []) ->
  exists w',
    refreshArticles force w = (Ok (cachedArticles w), w')
    /\ files w' = files w.
Proof.
  intros H%aggregated_nil.
  destruct (isRefreshing w && negb force) eqn:G.
  { apply andb_true_iff in G as [G F]. destruct force; [done|].
    rewrite refreshArticles_guarded by done. by eexists. }
  destruct (decide (force = true \/ cachedArticles w = [])) as [F|F].
  - rewrite refreshArticles_fetching by done. rewrite H.
    destruct (afterFetch_cases [] (fetchedWorld force w))
      as (r & w1 & -> & _ & _ & _ & P).
    destruct r as [l|e].
    + destruct P as (_ & P & _). destruct (P eq_refl) as [-> Hf].
      eexists. split; [reflexivity|]. exact Hf.
    + by destruct P as (_ & ? & _).
  - assert (force = false) as -> by (destruct force; [by destruct F; left|done]).
    assert (Hne : cachedArticles w <> []) by (intros E; apply F; by right).
    rewrite andb_true_r in G. rewrite refreshArticles_served by done.
    by eexists.
Qed.

Lemma X16_refresh_nothing_fetched_witness :
  let w := Sample.worldWith 1704448800000 1704448800000
             [Sample.numbered "2024-01-05T10:00:00.000Z" None 1] in
  exists w',
    refreshArticles true w = (Ok (cachedArticles w), w') /\ files w' = files w.
Proof.
  cbv zeta. apply (X16_refresh_nothing_fetched true). intros s _. reflexivity.
Defined.
